(** * Stellar Skies Console: tool registry, chat route and console page

    A shallow embedding of [src/app/api/chat/route.ts] (the five mock tools
    and the options the route hands to [streamText]) and of the handlers of
    the console page, followed by the properties the specification states
    about them.

    Conventions.
    - A JavaScript string is a [string]; a literal holds the UTF-8 bytes of
      the source text.  No property below depends on the length of a string
      that holds a character outside ASCII.
    - A JavaScript number is the rational it denotes, a [Q].  The product of
      two numbers is rounded to binary64 ([times]); the sums and the lengths
      that occur are small integers, which binary64 holds exactly, and are
      written in [Z] and [nat].
    - [Math.random()] is the only effect of the tools.  It is modelled as a
      read of an infinite tape of draws [nat -> Q] at a position that is
      threaded through the computation; the contract of [Math.random], a
      binary64 number [r] with [0 <= r < 1], is a hypothesis on the tape.
    - Reading an array outside its bounds gives [undefined] in JavaScript.
      The embedding has no [undefined]: such a read is [None], and a
      computation that meets it has no result.  The theorems show that a
      tape within the contract never leads there. *)

From Stdlib Require Import ZArith QArith Qround Qpower Lia.
From stdpp Require Import base option list strings gmap.

Close Scope Q_scope.
Open Scope string_scope.

(** ** Numbers: rounding to binary64 *)

(** [2 ^ k], for every integer [k]. *)
Definition pow2 (k : Z) : Q := (2 ^ k)%Q.

(** The integer part of the binary logarithm of a positive number. *)
Definition ilog2 (x : Q) : Z :=
  let d := (Z.log2 (Qnum x) - Z.log2 (Z.pos (Qden x)))%Z in
  if Qle_bool (pow2 d) x then d else (d - 1)%Z.

(** The nearest integer, the even one of two that are equally near. *)
Definition nearest_even (y : Q) : Z :=
  let f := Qfloor y in
  match (y - inject_Z f ?= 1 # 2)%Q with
  | Lt => f
  | Eq => if Z.even f then f else (f + 1)%Z
  | Gt => (f + 1)%Z
  end.

(** The binary64 number nearest to a positive number below the overflow
    threshold: 53 significant bits, on a grid no finer than [2 ^ -1074]. *)
Definition round_pos (x : Q) : Q :=
  let e := Z.max (ilog2 x - 52) (-1074) in
  (inject_Z (nearest_even (x / pow2 e)) * pow2 e)%Q.

(** The binary64 number nearest to [x], the one with the even significand of
    two that are equally near; [x] is below the overflow threshold. *)
Definition binary64 (x : Q) : Q :=
  match (x ?= 0)%Q with
  | Eq => 0%Q
  | Gt => round_pos x
  | Lt => (- round_pos (- x))%Q
  end.

(** A number that binary64 holds: rounding leaves it as it is. *)
Definition is_binary64 (x : Q) : Prop := (binary64 x == x)%Q.

(** [x * y] on numbers *)
Definition times (x y : Q) : Q := binary64 (x * y).

(** ** Randomness: a state monad over the position on the tape *)

Definition Rand (A : Type) : Type := (nat -> Q) -> nat -> option (A * nat).

#[global] Instance Rand_ret : MRet Rand :=
  fun A a _ pos => Some (a, pos).

#[global] Instance Rand_bind : MBind Rand :=
  fun A B f m draws pos =>
    match m draws pos with
    | Some (a, pos') => f a draws pos'
    | None => None
    end.

(** [Math.random()] *)
Definition Math_random : Rand Q :=
  fun draws pos => Some (draws pos, S pos).

(** [Math.floor] *)
Definition Math_floor (x : Q) : Z := Qfloor x.

(** A value that must not be [undefined]. *)
Definition defined {A} (o : option A) : Rand A :=
  fun _ pos => match o with Some a => Some (a, pos) | None => None end.

(** The contract of [Math.random]: every draw is a number in [0, 1). *)
Definition unit_draws (draws : nat -> Q) : Prop :=
  forall n, is_binary64 (draws n) /\ (0 <= draws n)%Q /\ (draws n < 1)%Q.

(** A tape within the contract, for the examples: 0, 1/8, 2/8, ..., 7/8, 0, ... *)
Definition sample_draws : nat -> Q := fun n => (Z.of_nat (n mod 8) # 8)%Q.

(** [items[k]] for a number [k] *)
Definition index {T} (items : list T) (k : Z) : option T :=
  if (k <? 0)%Z then None else items !! Z.to_nat k.

(** [xs.map(f)] where [f] draws: the elements are visited left to right. *)
Fixpoint mapR {A B} (f : A -> Rand B) (xs : list A) : Rand (list B) :=
  match xs with
  | [] => mret []
  | x :: rest => y ← f x; ys ← mapR f rest; mret (y :: ys)
  end.

(** ** route.ts *)

Definition maxDuration : Z := 30.

(** const randomOf = (items) => items[Math.floor(Math.random() * items.length)] *)
Definition randomOf {T} (items : list T) : Rand T :=
  r ← Math_random;
  defined (index items (Math_floor (times r (inject_Z (Z.of_nat (length items)))))).

(** [[pool[i], pool[j]] = [pool[j], pool[i]]]: both reads, then the write to
    [pool[i]], then the write to [pool[j]]. *)
Definition swap {T} (pool : list T) (i j : Z) : option (list T) :=
  match index pool j, index pool i with
  | Some pj, Some pi => Some (<[Z.to_nat j := pi]> (<[Z.to_nat i := pj]> pool))
  | _, _ => None
  end.

(** The loop [for (let i = pool.length - 1; i > 0; i--)], entered with the
    current value of [i]. *)
Fixpoint shuffle {T} (i : nat) (pool : list T) : Rand (list T) :=
  match i with
  | O => mret pool
  | S i' =>
      r ← Math_random;
      let j := Math_floor (times r (inject_Z (Z.of_nat i + 1))) in
      pool' ← defined (swap pool (Z.of_nat i) j);
      shuffle i' pool'
  end.

(** const takeRandom = (items, count) => { ... } *)
Definition takeRandom {T} (items : list T) (count : nat) : Rand (list T) :=
  pool ← shuffle (length items - 1) items;
  mret (take (Nat.min count (length pool)) pool).

Definition conditionPool : list string :=
  [ "radiant auroras with sporadic ion gusts";
    "levitating mist and crystalline snowfall";
    "glittering micro-meteor drizzle";
    "calm plasma tide with soft starlight";
    "low-gravity fog banks swirling over the horizon";
    "polar light storms tracing the skyline";
    "nebula haze with intermittent gamma sparkles" ].

Definition windPool : list string :=
  [ "solar breeze at 18 mph";
    "ion drift steady at 9 mph";
    "crosswind bursts peaking at 24 mph";
    "mag-lev gusts oscillating at 12 mph";
    "vacuum pockets causing gentle downdrafts";
    "orbit-synced zephyrs circling at 15 mph" ].

Definition radiationPool : list string :=
  [ "radiation index 3 (shielded comfort)";
    "radiation index 5 (medium flare activity)";
    "radiation index 7 (reinforce hull plating)";
    "trace cosmic rays; recommend polarized lenses";
    "gamma sparkle showers (short exposure advised)" ].

Definition advisoryPool : list string :=
  [ "Visibility remains crystalline within 20 klicks.";
    "Flux monitors stable; optimal for sightseeing.";
    "Expect static buildup on exposed alloys.";
    "Great time for sub-orbital glides and photo ops.";
    "Solar sails may flutter—tighten your rigging.";
    "Recommended to enable adaptive gravity boots." ].

Inductive HazardSeverity := Low | Elevated | Critical.

Module HazardScanItem.
Record t := mk { name : string; severity : HazardSeverity; guidance : string }.
End HazardScanItem.

Definition hazardPool : list HazardScanItem.t :=
  [ HazardScanItem.mk "Ion Storm Corridor" Critical
      "Delay travel or increase shield harmonics by 30%.";
    HazardScanItem.mk "Rogue Micro-Meteor Swarm" Elevated
      "Activate kinetic deflectors; reduce speed under 300 knots.";
    HazardScanItem.mk "Solar Flare Echo" Elevated
      "Switch to reflective plating and route through the dusk-side.";
    HazardScanItem.mk "Gravity Tide Surge" Critical
      "Anchor vessels and reschedule landings two cycles later.";
    HazardScanItem.mk "Frozen Plasma Sheen" Low
      "Engage traction fields; watch for slick docking pads.";
    HazardScanItem.mk "Resonant Aurora Current" Low
      "Tune communicators to backup spectrum to avoid drift." ].

(** An entry of [eventPool]: a celestial event that has no time yet. *)
Module EventEntry.
Record t := mk { title : string; detail : string }.
End EventEntry.

Definition eventPool : list EventEntry.t :=
  [ EventEntry.mk "Europa Ice Bloom"
      "Subsurface geysers crystallize mid-arc, refracting cerulean light.";
    EventEntry.mk "Leviathan Comet Flyby"
      "A sapphire tail cuts across the sky—ideal for panoramic observation decks.";
    EventEntry.mk "Titan Dune Choir"
      "Ion winds whistle across dunes, creating harmonic resonance at dusk.";
    EventEntry.mk "Rings Bazaar Lightfall"
      "Saturn's rings cast shimmering patterns over local markets.";
    EventEntry.mk "Aurora Cascade Pulse"
      "Aurora curtains ripple in layered waves, best seen at high altitude.";
    EventEntry.mk "Neptune Halo Mirage"
      "An atmospheric reflection creates a ghostly second halo for six minutes." ].

Definition eventTimePool : list string :=
  [ "Orbit 22.4";
    "GST + 02h";
    "Local dusk cycle";
    "Solar noon";
    "Three pulses past midnight";
    "Blue giant rising" ].

Module NavigationWindow.
Record t := mk { label : string; window : string; note : string }.
End NavigationWindow.

Definition windowPool : list NavigationWindow.t :=
  [ NavigationWindow.mk "Calm Corridor" "21:10 - 22:05 GST"
      "Ion flux dips below 10%; ideal for docking maneuvers.";
    NavigationWindow.mk "Polar Drift Lane" "04:40 - 05:35 GST"
      "Gravity tides neutralize, opening a smooth northbound path.";
    NavigationWindow.mk "Sunrise Slipstream" "08:05 - 08:50 GST"
      "Solar sail efficiency peaks thanks to coherent breezes.";
    NavigationWindow.mk "Nightglow Passage" "16:45 - 17:25 GST"
      "Nebula particulates thin out, boosting sensor clarity.";
    NavigationWindow.mk "Crystalline Approach" "11:10 - 12:00 GST"
      "Docking pads defrost; minimal plasma sheen expected." ].

(** *** Type definitions for tool results *)

Module WeatherResult.
Record t := mk {
  location : string;
  temperature : Z;
  conditions : string;
  wind : string;
  radiation : string;
  advisory : string }.
End WeatherResult.

Module WeatherWearItem.
Record t := mk { title : string; description : string }.
End WeatherWearItem.

Module WeatherWear.
Record t := mk { suggestions : list WeatherWearItem.t }.
End WeatherWear.

Module HazardScanReport.
Record t := mk {
  location : string;
  riskLevel : HazardSeverity;
  hazards : list HazardScanItem.t }.
End HazardScanReport.

Module CelestialEvent.
Record t := mk { title : string; time : string; detail : string }.
End CelestialEvent.

Module CelestialEventFeed.
Record t := mk { events : list CelestialEvent.t }.
End CelestialEventFeed.

Module NavigationWindowGuide.
Record t := mk { windows : list NavigationWindow.t }.
End NavigationWindowGuide.

(** The input of the four tools whose schema is
    [z.object({ location: z.string() })]. *)
Module LocationInput.
Record t := mk { location : string }.
End LocationInput.

(** *** The [execute] functions of the tools *)

Module weather.
Definition execute (input : LocationInput.t) : Rand WeatherResult.t :=
  let location := LocationInput.location input in
  r ← Math_random;
  let temperature := (42 + Math_floor (times r 220))%Z in
  conditions ← randomOf conditionPool;
  wind ← randomOf windPool;
  radiation ← randomOf radiationPool;
  advisory ← randomOf advisoryPool;
  mret (WeatherResult.mk location temperature conditions wind radiation advisory).
End weather.

Module hazardScan.
Definition execute (input : LocationInput.t) : Rand HazardScanReport.t :=
  let location := LocationInput.location input in
  riskLevel ← randomOf [Low; Elevated; Critical];
  taken ← takeRandom hazardPool 3;
  let hazards :=
    map (fun hazard =>
           HazardScanItem.mk (HazardScanItem.name hazard)
             (HazardScanItem.severity hazard)
             (HazardScanItem.guidance hazard)) taken in
  mret (HazardScanReport.mk location riskLevel hazards).
End hazardScan.

Module navigationWindows.
Definition execute (input : LocationInput.t) : Rand NavigationWindowGuide.t :=
  let location := LocationInput.location input in
  taken ← takeRandom windowPool 3;
  let windows :=
    map (fun window =>
           NavigationWindow.mk (NavigationWindow.label window)
             (NavigationWindow.window window)
             (NavigationWindow.note window ++ " (" ++ location ++ ").")) taken in
  mret (NavigationWindowGuide.mk windows).
End navigationWindows.

Module celestialEvents.
(** [execute: async () => ...]: the validated input is not bound. *)
Definition execute (_ : LocationInput.t) : Rand CelestialEventFeed.t :=
  taken ← takeRandom eventPool 3;
  events ← mapR (fun event =>
                   time ← randomOf eventTimePool;
                   mret (CelestialEvent.mk (EventEntry.title event) time
                           (EventEntry.detail event))) taken;
  mret (CelestialEventFeed.mk events).
End celestialEvents.

Module whatToWear.
(** The constraints of [z.array(...).min(1).max(3)] that a list can break.
    That [suggestions] is an array of objects with a string [title] and a
    string [description] is what the type [WeatherWear.t] says. *)
Inductive issue := too_small (minimum : nat) | too_big (maximum : nat).

(** [inputSchema]: the violated constraints, none when the input is
    accepted.  Zod runs every check of the array and collects the issues. *)
Definition inputSchema (input : WeatherWear.t) : list issue :=
  let n := length (WeatherWear.suggestions input) in
  ((if (n <? 1)%nat then [too_small 1] else []) ++
   (if (3 <? n)%nat then [too_big 3] else []))%list.

Definition execute (input : WeatherWear.t) : Rand WeatherWear.t :=
  let suggestions := WeatherWear.suggestions input in
  mret (WeatherWear.mk suggestions).
End whatToWear.

(** *** The names of the [tools] object, a call and its result *)

Inductive ToolName :=
  | tool_weather
  | tool_hazardScan
  | tool_navigationWindows
  | tool_celestialEvents
  | tool_whatToWear.

Definition tool_key (t : ToolName) : string :=
  match t with
  | tool_weather => "weather"
  | tool_hazardScan => "hazardScan"
  | tool_navigationWindows => "navigationWindows"
  | tool_celestialEvents => "celestialEvents"
  | tool_whatToWear => "whatToWear"
  end.

Inductive ToolCall :=
  | call_weather (input : LocationInput.t)
  | call_hazardScan (input : LocationInput.t)
  | call_navigationWindows (input : LocationInput.t)
  | call_celestialEvents (input : LocationInput.t)
  | call_whatToWear (input : WeatherWear.t).

Definition called (c : ToolCall) : ToolName :=
  match c with
  | call_weather _ => tool_weather
  | call_hazardScan _ => tool_hazardScan
  | call_navigationWindows _ => tool_navigationWindows
  | call_celestialEvents _ => tool_celestialEvents
  | call_whatToWear _ => tool_whatToWear
  end.

Inductive ToolOutput :=
  | out_weather (result : WeatherResult.t)
  | out_hazardScan (result : HazardScanReport.t)
  | out_navigationWindows (result : NavigationWindowGuide.t)
  | out_celestialEvents (result : CelestialEventFeed.t)
  | out_whatToWear (result : WeatherWear.t).

(** ** Messages and their parts, as the page reads them

    A part is an object with a [type]; a tool part has the type
    ["tool-" + name], a [state], and an [output] or an [errorText]. *)

Inductive ToolState :=
  | input_streaming
  | input_available
  | output_available
  | output_error.

#[global] Instance ToolState_eq_dec : EqDecision ToolState.
Proof. solve_decision. Defined.

Module ToolPart.
Record t := mk {
  toolName : ToolName;
  state : ToolState;
  input : option ToolCall;
  output : option ToolOutput;
  errorText : option string }.
End ToolPart.

Inductive Part :=
  | TextPart (text : string)
  | ToolPartOf (p : ToolPart.t).

(** [part.type] *)
Definition part_type (p : Part) : string :=
  match p with
  | TextPart _ => "text"
  | ToolPartOf tp => "tool-" ++ tool_key (ToolPart.toolName tp)
  end.

(** [part.state]: [None] is [undefined], a text part of this model has no
    state. *)
Definition part_state (p : Part) : option ToolState :=
  match p with
  | TextPart _ => None
  | ToolPartOf tp => Some (ToolPart.state tp)
  end.

Inductive Role := user | assistant.

Module Message.
(** [parts] may be [undefined] for the page, which reads [message.parts ?? []]. *)
Record t := mk { id : string; role : Role; parts : option (list Part) }.
End Message.

(** ** The console page, [Home] *)

Definition quickPrompts : list (string * string) :=
  [ ("Europa dive briefing",
     "Give me the weather, hazard scan, navigation windows, and gear for a guided ocean dive on Europa this weekend.");
    ("Rings Bazaar fly-in",
     "I want to visit the Rings Bazaar around Saturn. Scan weather, hazards, and best arrival windows, then outfit me.");
    ("Neptune night cruise",
     "Plan a relaxed night cruise near Neptune's halo. Include celestial events worth catching and what to wear.") ].

Module Home.

(** What a render of [Home] closes over: the values of [useChat] and the
    draft in the text area. *)
Record t := mk { messages : list Message.t; status : string; input : string }.

(** The calls a handler makes, in order. *)
Inductive Call :=
  | sendMessage (text : string)
  | setInput (value : string)
  | setMessages (value : list Message.t)
  | clearError
  | focusInput.

Definition isStreaming (h : t) : bool :=
  String.eqb (status h) "streaming" || String.eqb (status h) "loading".

(** [messages.reduce((count, message) => count + parts.filter(...).length, 0)].
    The [type] of a part of this model is always a string, so
    [typeof part?.type === "string"] holds and is not written. *)
Definition toolActivations (h : t) : nat :=
  fold_left
    (fun count message =>
       let parts := default [] (Message.parts message) in
       (count +
        length
          (List.filter
             (fun part =>
                String.prefix "tool-" (part_type part) &&
                bool_decide (part_state part = Some output_available))
             parts))%nat)
    (messages h) 0%nat.

(** The parts of all messages of a transcript, in order. *)
Definition all_parts (messages : list Message.t) : list Part :=
  concat (map (fun message => default [] (Message.parts message)) messages).

(** The number of parts, across all messages, whose state is
    [output-available]: the "tool runs" metric as the specification words it. *)
Definition output_available_count (messages : list Message.t) : nat :=
  length
    (List.filter (fun part => bool_decide (part_state part = Some output_available))
       (all_parts messages)).

(** [messages.length > 0] *)
Definition hasMessages (h : t) : bool := (0 <? length (messages h))%nat.

(** An entry of [statusDetailsMap]. *)
Module StatusDetails.
Record t := mk { label : string; description : string; badgeClass : string }.
End StatusDetails.

Definition statusDetailsMap : gmap string StatusDetails.t :=
  <["streaming" :=
      StatusDetails.mk "Streaming response"
        "Vox Solaris is transmitting fresh telemetry."
        "border-sky-400/40 bg-sky-500/20 text-sky-100"]>
  (<["loading" :=
      StatusDetails.mk "Routing tools"
        "Linking weather, hazard, and navigation modules."
        "border-indigo-400/40 bg-indigo-500/20 text-indigo-100"]>
  (<["ready" :=
      StatusDetails.mk "Standing by"
        "Console idle and ready for your next prompt."
        "border-white/20 bg-white/10 text-slate-200"]>
  (<["idle" :=
      StatusDetails.mk "Standing by"
        "Console idle and ready for your next prompt."
        "border-white/20 bg-white/10 text-slate-200"]>
  (<["error" :=
      StatusDetails.mk "Transmission glitch"
        "Interference hit the feed. Try again in a beat."
        "border-rose-500/45 bg-rose-500/20 text-rose-100"]>
  (<["errored" :=
      StatusDetails.mk "Transmission glitch"
        "Interference hit the feed. Try again in a beat."
        "border-rose-500/45 bg-rose-500/20 text-rose-100"]> ∅))))).

Section Prototype.

(** The names of the members that an object literal inherits from
    [Object.prototype], of the JavaScript runtime: [statusDetailsMap[status]]
    finds such a member when the map has no entry of its own. *)
Variable inherited : string -> bool.

(** [statusDetailsMap[status] ?? statusDetailsMap.ready]; [None] is an
    inherited member, which is no entry and has no [label]. *)
Definition statusDetails (h : t) : option StatusDetails.t :=
  match statusDetailsMap !! status h with
  | Some details => Some details
  | None => if inherited (status h) then None else statusDetailsMap !! "ready"
  end.

End Prototype.

(** *** What a part renders to

    The markup is left out; a view keeps the text that it shows, a card the
    object that it lays out. *)
Inductive View :=
  | paragraph (text : string)
  | loader (caption : string)
  | failure (text : string)
  | card (tool : ToolName) (data : ToolOutput).

(** What the callback does for a part: it returns an element, or a
    [TypeError] escapes it. *)
Inductive Rendered :=
  | element (view : View)
  | TypeError.

(** [part.text], [part.errorText] and [part.output]; [None] is [undefined]. *)
Definition part_text (p : Part) : option string :=
  match p with
  | TextPart text => Some text
  | ToolPartOf _ => None
  end.

Definition part_errorText (p : Part) : option string :=
  match p with
  | TextPart _ => None
  | ToolPartOf tp => ToolPart.errorText tp
  end.

Definition part_output (p : Part) : option ToolOutput :=
  match p with
  | TextPart _ => None
  | ToolPartOf tp => ToolPart.output tp
  end.

(** [data.suggestions], [data.hazards], [data.events] and [data.windows] on
    the object a tool returned; [None] is [undefined], the object has no
    such member. *)
Definition data_suggestions (data : ToolOutput) : option (list WeatherWearItem.t) :=
  match data with
  | out_whatToWear result => Some (WeatherWear.suggestions result)
  | _ => None
  end.

Definition data_hazards (data : ToolOutput) : option (list HazardScanItem.t) :=
  match data with
  | out_hazardScan result => Some (HazardScanReport.hazards result)
  | _ => None
  end.

Definition data_events (data : ToolOutput) : option (list CelestialEvent.t) :=
  match data with
  | out_celestialEvents result => Some (CelestialEventFeed.events result)
  | _ => None
  end.

Definition data_windows (data : ToolOutput) : option (list NavigationWindow.t) :=
  match data with
  | out_navigationWindows result => Some (NavigationWindowGuide.windows result)
  | _ => None
  end.

(** [part.state === s] *)
Definition state_is (p : Part) (s : ToolState) : bool :=
  bool_decide (part_state p = Some s).

(** [{text}] in the markup: [undefined] shows nothing. *)
Definition shown (text : option string) : string := default "" text.

(** The card of [weather]: [weatherData.location] and the five other reads
    throw when [part.output] is [undefined]; on an object a member that is
    missing reads as [undefined] and shows nothing. *)
Definition plain_card (tool : ToolName) (part : Part) : Rendered :=
  match part_output part with
  | None => TypeError
  | Some data => element (card tool data)
  end.

(** The four other cards call [data.member.map(...)]: the read of [member]
    throws when [part.output] is [undefined], the call of [map] when the
    object has no such member. *)
Definition list_card {A} (tool : ToolName) (member : ToolOutput -> option (list A))
    (part : Part) : Rendered :=
  match part_output part with
  | None => TypeError
  | Some data =>
      match member data with
      | None => TypeError
      | Some _ => element (card tool data)
      end
  end.

(** The block [if (part.type === "text") { ... }]; [None]: the block returns
    nothing and the next one is tried. *)
Definition text_block (part : Part) : option Rendered :=
  if String.eqb (part_type part) "text" then
    Some (element (paragraph (shown (part_text part))))
  else None.

(** The block [if (part.type === "tool-weather") { ... }] *)
Definition weather_block (part : Part) : option Rendered :=
  if String.eqb (part_type part) "tool-weather" then
    if state_is part input_streaming || state_is part input_available then
      Some (element (loader "Gathering weather telemetry..."))
    else if state_is part output_error then
      Some (element (failure ("Weather scan failed: " ++ shown (part_errorText part))))
    else if state_is part output_available then
      Some (plain_card tool_weather part)
    else None
  else None.

(** The block [if (part.type === "tool-whatToWear") { ... }] *)
Definition whatToWear_block (part : Part) : option Rendered :=
  if String.eqb (part_type part) "tool-whatToWear" then
    if state_is part input_streaming || state_is part input_available then
      Some (element (loader "Drafting gear load-out..."))
    else if state_is part output_error then
      Some (element (failure ("Gear bay offline: " ++ shown (part_errorText part))))
    else if state_is part output_available then
      Some (list_card tool_whatToWear data_suggestions part)
    else None
  else None.

(** The block [if (part.type === "tool-hazardScan") { ... }] *)
Definition hazardScan_block (part : Part) : option Rendered :=
  if String.eqb (part_type part) "tool-hazardScan" then
    if state_is part input_streaming || state_is part input_available then
      Some (element (loader "Running hazard scan..."))
    else if state_is part output_error then
      Some (element (failure ("Hazard scan failed: " ++ shown (part_errorText part))))
    else if state_is part output_available then
      Some (list_card tool_hazardScan data_hazards part)
    else None
  else None.

(** The block [if (part.type === "tool-celestialEvents") { ... }] *)
Definition celestialEvents_block (part : Part) : option Rendered :=
  if String.eqb (part_type part) "tool-celestialEvents" then
    if state_is part input_streaming || state_is part input_available then
      Some (element (loader "Mapping celestial events..."))
    else if state_is part output_error then
      Some (element (failure ("Event tracker glitch: " ++ shown (part_errorText part))))
    else if state_is part output_available then
      Some (list_card tool_celestialEvents data_events part)
    else None
  else None.

(** The block [if (part.type === "tool-navigationWindows") { ... }] *)
Definition navigationWindows_block (part : Part) : option Rendered :=
  if String.eqb (part_type part) "tool-navigationWindows" then
    if state_is part input_streaming || state_is part input_available then
      Some (element (loader "Calculating navigation windows..."))
    else if state_is part output_error then
      Some (element
              (failure ("Navigation planner offline: " ++ shown (part_errorText part))))
    else if state_is part output_available then
      Some (list_card tool_navigationWindows data_windows part)
    else None
  else None.

(** The callback of [message.parts?.map((part, index) => ...)]: the first
    block that returns or throws decides; [None] is the final [return null]. *)
Definition renderPart (part : Part) : option Rendered :=
  match text_block part with
  | Some done => Some done
  | None =>
  match weather_block part with
  | Some done => Some done
  | None =>
  match whatToWear_block part with
  | Some done => Some done
  | None =>
  match hazardScan_block part with
  | Some done => Some done
  | None =>
  match celestialEvents_block part with
  | Some done => Some done
  | None => navigationWindows_block part
  end end end end end.

(** [message.parts?.map(...)] over all messages, in order. *)
Definition renderedParts (h : t) : list (option Rendered) :=
  concat (map (fun message => map renderPart (default [] (Message.parts message)))
            (messages h)).

Definition is_card (r : option Rendered) : bool :=
  match r with
  | Some (element (card _ _)) => true
  | _ => false
  end.

(** The tool whose [execute] returns an object of this shape. *)
Definition output_tool (data : ToolOutput) : ToolName :=
  match data with
  | out_weather _ => tool_weather
  | out_hazardScan _ => tool_hazardScan
  | out_navigationWindows _ => tool_navigationWindows
  | out_celestialEvents _ => tool_celestialEvents
  | out_whatToWear _ => tool_whatToWear
  end.

#[global] Instance ToolName_eq_dec : EqDecision ToolName.
Proof. solve_decision. Defined.

(** What the casts [part.output as WeatherResult] and the like take for
    granted: a tool part in [output-available] holds the output of its own
    tool. *)
Definition well_formed (part : Part) : bool :=
  match part with
  | TextPart _ => true
  | ToolPartOf tp =>
      match ToolPart.state tp with
      | output_available =>
          match ToolPart.output tp with
          | Some data => bool_decide (output_tool data = ToolPart.toolName tp)
          | None => false
          end
      | _ => true
      end
  end.

Section Handlers.

(** [String.prototype.trim], of the JavaScript runtime. *)
Variable trim : string -> string.

(** [handleSubmit]; [!trimmed] holds of the empty string only. *)
Definition handleSubmit (h : t) : list Call :=
  let trimmed := trim (input h) in
  if String.eqb trimmed "" || isStreaming h then []
  else [sendMessage trimmed; setInput ""].

(** [handleQuickPrompt] *)
Definition handleQuickPrompt (h : t) (prompt : string) : list Call :=
  [sendMessage prompt; focusInput].

(** [handleClearDraft] *)
Definition handleClearDraft (h : t) : list Call :=
  [setInput ""; focusInput].

(** [handleClear] *)
Definition handleClear (h : t) : list Call :=
  ([setMessages []; clearError] ++ handleClearDraft h)%list.

(** [disabled={isStreaming || !input.trim()}] of the send button *)
Definition sendDisabled (h : t) : bool :=
  isStreaming h || String.eqb (trim (input h)) "".

(** [disabled={!hasMessages && !input.trim().length}] of the Clear button;
    a length is zero for the empty string only, in bytes as in code units. *)
Definition clearDisabled (h : t) : bool :=
  negb (hasMessages h) && (String.length (trim (input h)) =? 0)%nat.

(** What a handler of a DOM event did: whether it called
    [event.preventDefault()], and its calls. *)
Record Handled := mkHandled { prevented : bool; calls : list Call }.

(** [onKeyDown] of the window; [input] is falsy when it is empty. *)
Definition onKeyDown (h : t) (metaKey ctrlKey : bool) (key : string) : Handled :=
  if (metaKey || ctrlKey) && String.eqb key "Enter" then
    mkHandled true (handleSubmit h)
  else if String.eqb key "Escape" && negb (String.eqb (input h) "") then
    mkHandled true (handleClearDraft h)
  else mkHandled false [].

(** [onSubmit] of the form *)
Definition onSubmit (h : t) : Handled := mkHandled true (handleSubmit h).

End Handlers.

(** The user messages a list of calls hands to [sendMessage]. *)
Definition sent (calls : list Call) : list string :=
  omap (fun c => match c with sendMessage text => Some text | _ => None end) calls.

End Home.

(** [String.prototype.trim] on ASCII text, for the examples: the white space
    at both ends is dropped. *)
Fixpoint trim_start (s : string) : string :=
  match s with
  | String c rest => if Ascii.is_space c then trim_start rest else s
  | EmptyString => EmptyString
  end.

Definition trim_ascii (s : string) : string :=
  String.rev (trim_start (String.rev (trim_start s))).

(** The members of [Object.prototype], for the examples. *)
Definition object_prototype_names : list string :=
  [ "constructor"; "hasOwnProperty"; "isPrototypeOf"; "propertyIsEnumerable";
    "toLocaleString"; "toString"; "valueOf"; "__proto__";
    "__defineGetter__"; "__defineSetter__"; "__lookupGetter__"; "__lookupSetter__" ].

Definition inherited_name (s : string) : bool :=
  bool_decide (s ∈ object_prototype_names).

(** ** The route handler, [POST] *)

(** Modelled from the spec: the decision of a reasoning step is the language
    model's and is not in the sources; it is the [Planner] capability of
    section 9 of the specification, [nextStep(transcript)] with the results
    emit-text, call-tool(name, args) and stop. *)
Inductive Step :=
  | emit_text (text : string)
  | call_tool (call : ToolCall)
  | stop.

(** [nextStep], from the transcript to the next step. *)
Definition Planner : Type := list Message.t -> Step.

(** Modelled from the spec: [stepCountIs] belongs to the [ai] package, which
    is not in the sources; the hard cap of section 4.2, a stop condition that
    is met when the number of steps taken is the given count. *)
Definition stepCountIs (stepCount : nat) (steps : list Step) : bool :=
  (length steps =? stepCount)%nat.

Module Request.
(** The JSON body of a request: [messages], and the other members, which
    [const { messages } = await req.json()] drops. *)
Record t := mk { messages : list Message.t; others : list (string * string) }.
End Request.

Module StreamText.
(** The argument of [streamText]. *)
Record t := mk {
  model : string;
  messages : list Message.t;
  system : string;
  stopWhen : list Step -> bool;
  tools : list ToolName }.
End StreamText.

Definition quoted (s : string) : string :=
  let q := String (Ascii.ascii_of_nat 34) EmptyString in q ++ s ++ q.

Definition system_prompt : string :=
  "You are Vox Solaris, the lead navigator for the Stellar Skies Console in the year 10,245. Speak like a seasoned but upbeat intergalactic meteorologist guiding curious travelers. Combine swagger with genuine care.

When helping a user, orchestrate the following tools thoughtfully:
- " ++ quoted "weather" ++ " gives you temperature, conditions, wind, radiation, and advisory details for a location. Reach for it first when the atmosphere or environment is unknown.
- " ++ quoted "hazardScan" ++ " spots dangerous anomalies. Pair it with weather whenever safety, travel, or gear prep is mentioned.
- " ++ quoted "navigationWindows" ++ " reveals the best departure or arrival windows. Use it when timing, routes, or logistics come up.
- " ++ quoted "celestialEvents" ++ " shares spectacles worth catching. Offer it for experiential or curiosity-driven requests.
- " ++ quoted "whatToWear" ++ " returns tailored gear load-outs. Always suggest gear if the traveler could benefit—even if they don't ask directly.

Give playful shorthand summaries, then expand with vivid, actionable detail. Stay in-character; never admit anything is fabricated—commit to the role.".

(** The call [streamText({...})] of [POST]; [convertToModelMessages] changes
    the representation of the messages, not the transcript they stand for. *)
Definition POST (req : Request.t) : StreamText.t :=
  StreamText.mk
    "gemini-2.0-flash"
    (Request.messages req)
    system_prompt
    (stepCountIs 7)
    [tool_weather; tool_hazardScan; tool_navigationWindows;
     tool_celestialEvents; tool_whatToWear].

(** What reaches the process from outside: its environment variables and a
    request.  [route.ts] has no read of [process.env]. *)
Module External.
Record t := mk { env : list (string * string); request : Request.t }.
End External.

(** The stop condition and the duration limit the process runs a response
    under. *)
Definition step_cap (x : External.t) : list Step -> bool :=
  StreamText.stopWhen (POST (External.request x)).

Definition timeout (x : External.t) : Z := maxDuration.

(** A quantity of the process is externally tunable when two inputs from
    outside can give it two values. *)
Definition tunable {A} (quantity : External.t -> A) : Prop :=
  exists x1 x2, quantity x1 <> quantity x2.

(** ** The engine: tool registry, transcript builder, turn orchestrator

    Modelled from the spec: the reasoning loop and the streaming of parts are
    [streamText] and [useChat] of the [ai] packages, which are not in the
    sources.  The definitions of this part follow sections 3, 4 and 5 of the
    specification; the tools, their schemas and the stop condition are the
    ones of [route.ts] above. *)

Module Engine.

(** Modelled from the spec: the tool-level errors of sections 4.1 and 7. *)
Inductive ToolError :=
  | InvalidArgumentsError (violated : list whatToWear.issue)
  | ToolExecutionError (message : string).

(** Modelled from the spec: [validateInput] of section 4.1, the schema of
    the tool applied to the arguments; the schemas are those of [route.ts].
    A [LocationInput.t] always satisfies [z.object({ location: z.string() })]. *)
Definition validateInput (call : ToolCall) : list whatToWear.issue :=
  match call with
  | call_whatToWear input => whatToWear.inputSchema input
  | _ => []
  end.

(** The [execute] of the tool that a call names. *)
Definition execute (call : ToolCall) : Rand ToolOutput :=
  match call with
  | call_weather input => r ← weather.execute input; mret (out_weather r)
  | call_hazardScan input => r ← hazardScan.execute input; mret (out_hazardScan r)
  | call_navigationWindows input =>
      r ← navigationWindows.execute input; mret (out_navigationWindows r)
  | call_celestialEvents input =>
      r ← celestialEvents.execute input; mret (out_celestialEvents r)
  | call_whatToWear input => r ← whatToWear.execute input; mret (out_whatToWear r)
  end.

(** Modelled from the spec: [invoke] of section 4.1, validate, then execute.
    No [execute] of the registry has a failure path, so [ToolExecutionError]
    is never raised here. *)
Definition invoke (call : ToolCall) : Rand (ToolError + ToolOutput) :=
  match validateInput call with
  | [] => out ← execute call; mret (inr out)
  | violated => mret (inl (InvalidArgumentsError violated))
  end.

Definition describe (i : whatToWear.issue) : string :=
  match i with
  | whatToWear.too_small _ => "suggestions has too few entries"
  | whatToWear.too_big _ => "suggestions has too many entries"
  end.

(** Modelled from the spec: the human-readable message of an error, which
    lists the violated constraints and becomes the [errorText] of the part
    (sections 4.1 and 7); the wording is not in the sources. *)
Definition message_of (e : ToolError) : string :=
  match e with
  | InvalidArgumentsError violated =>
      "Invalid arguments: " ++ String.concat "; " (map describe violated)
  | ToolExecutionError message => message
  end.

(** *** Streaming transcript builder *)

(** Modelled from the spec: what a transition carries, the arguments, the
    output or the error text (sections 3 and 4.3). *)
Inductive Payload :=
  | input_payload (call : ToolCall)
  | output_payload (out : ToolOutput)
  | error_payload (text : string).

(** Modelled from the spec: the transcript-update events of section 6. *)
Inductive Event :=
  | append (part : Part)
  | transition (partIndex : nat) (newState : ToolState) (payload : Payload).

(** A tool part moved to [newState], with the payload stored in its field. *)
Definition advance (tp : ToolPart.t) (newState : ToolState) (payload : Payload)
  : ToolPart.t :=
  match payload with
  | input_payload call =>
      ToolPart.mk (ToolPart.toolName tp) newState (Some call)
        (ToolPart.output tp) (ToolPart.errorText tp)
  | output_payload out =>
      ToolPart.mk (ToolPart.toolName tp) newState (ToolPart.input tp)
        (Some out) (ToolPart.errorText tp)
  | error_payload text =>
      ToolPart.mk (ToolPart.toolName tp) newState (ToolPart.input tp)
        (ToolPart.output tp) (Some text)
  end.

(** Modelled from the spec: [append] and [transition] of section 4.3, the
    two mutations of the message in progress. *)
Definition apply_event (parts : list Part) (e : Event) : list Part :=
  match e with
  | append part => (parts ++ [part])%list
  | transition partIndex newState payload =>
      match parts !! partIndex with
      | Some (ToolPartOf tp) =>
          <[partIndex := ToolPartOf (advance tp newState payload)]> parts
      | _ => parts
      end
  end.

(** The message an event stream builds from the empty message. *)
Definition replay (events : list Event) : list Part :=
  fold_left apply_event events [].

(** What [currentMessage()] can return while [events] arrive: the message
    after each number of events. *)
Definition snapshots (events : list Event) : list (list Part) :=
  map (fun k => replay (take k events)) (seq 0 (S (length events))).

(** Consecutive repetitions removed. *)
Fixpoint squash (states : list ToolState) : list ToolState :=
  match states with
  | [] => []
  | s :: rest =>
      match rest with
      | [] => [s]
      | s' :: _ => if decide (s = s') then squash rest else s :: squash rest
      end
  end.

(** The state of the part at [partIndex] of a message, when it is a tool
    part. *)
Definition state_at (partIndex : nat) (parts : list Part) : option ToolState :=
  parts !! partIndex ≫= part_state.

(** The state sequence observed of the part at [partIndex]. *)
Definition observed (partIndex : nat) (events : list Event) : list ToolState :=
  squash (omap (state_at partIndex) (snapshots events)).

(** The two complete progressions of a tool part. *)
Definition succeeded : list ToolState :=
  [input_streaming; input_available; output_available].

Definition failed : list ToolState :=
  [input_streaming; input_available; output_error].

(** The messages after each event of a stream applied to [parts]. *)
Fixpoint after (parts : list Part) (events : list Event) : list (list Part) :=
  match events with
  | [] => []
  | e :: rest => apply_event parts e :: after (apply_event parts e) rest
  end.

(** From one observation of a part to the next: the part appears in
    [input-streaming], or moves one state forward. *)
Definition next_state (a b : option ToolState) : bool :=
  match a, b with
  | None, Some input_streaming
  | Some input_streaming, Some input_available
  | Some input_available, Some output_available
  | Some input_available, Some output_error => true
  | _, _ => false
  end.

(** Observations that start after [cur] and, one to the next, repeat or move
    forward. *)
Fixpoint chain (cur : option ToolState) (states : list (option ToolState)) : Prop :=
  match states with
  | [] => True
  | s :: rest => (s = cur \/ next_state cur s = true) /\ chain s rest
  end.

(** The progression that leads to an observation, and the same without its
    last state. *)
Definition path (cur : option ToolState) : list ToolState :=
  match cur with
  | None => []
  | Some input_streaming => [input_streaming]
  | Some input_available => [input_streaming; input_available]
  | Some output_available => succeeded
  | Some output_error => failed
  end.

Definition front (cur : option ToolState) : list ToolState :=
  removelast (path cur).

(** *** Turn orchestrator *)

(** Modelled from the spec: the states of a response (section 4.2). *)
Inductive Phase := Idle | Reasoning | Done.

Module Run.
(** A response in progress: the assistant message so far, the events that
    built it, and the reasoning steps taken. *)
Record t := mk {
  phase : Phase;
  message : list Part;
  log : list Event;
  steps : list Step }.
End Run.

(** The part of a tool call as it is appended, once its arguments have
    materialized, and once the call has settled. *)
Definition streaming_part (call : ToolCall) : ToolPart.t :=
  ToolPart.mk (called call) input_streaming None None None.

Definition available_part (call : ToolCall) : ToolPart.t :=
  ToolPart.mk (called call) input_available (Some call) None None.

Definition settled_part (call : ToolCall) (result : ToolError + ToolOutput)
  : ToolPart.t :=
  match result with
  | inr out => ToolPart.mk (called call) output_available (Some call) (Some out) None
  | inl e =>
      ToolPart.mk (called call) output_error (Some call) None (Some (message_of e))
  end.

(** Modelled from the spec: the events of one tool-call step of section 4.2
    on the part at [partIndex]: append in [input-streaming], then
    [input-available] with the arguments, then [output-available] with the
    output or [output-error] with the error text. *)
Definition tool_events (partIndex : nat) (call : ToolCall)
    (result : ToolError + ToolOutput) : list Event :=
  [ append (ToolPartOf (streaming_part call));
    transition partIndex input_available (input_payload call);
    match result with
    | inr out => transition partIndex output_available (output_payload out)
    | inl e => transition partIndex output_error (error_payload (message_of e))
    end ].

(** The events are logged and applied to the message, in order. *)
Definition emit (run : Run.t) (events : list Event) : Run.t :=
  Run.mk (Run.phase run)
    (fold_left apply_event events (Run.message run))
    (Run.log run ++ events)
    (Run.steps run).

(** Modelled from the spec: one step of section 4.2, a text part, a tool
    call with its three events, or nothing on stop. *)
Definition perform (run : Run.t) (s : Step) : Rand Run.t :=
  match s with
  | emit_text text => mret (emit run [append (TextPart text)])
  | call_tool call =>
      result ← invoke call;
      mret (emit run (tool_events (length (Run.message run)) call result))
  | stop => mret run
  end.

(** The step is counted. *)
Definition noted (run : Run.t) (s : Step) : Run.t :=
  Run.mk (Run.phase run) (Run.message run) (Run.log run) (Run.steps run ++ [s]).

(** The response reaches [Done]. *)
Definition finish (run : Run.t) : Run.t :=
  Run.mk Done (Run.message run) (Run.log run) (Run.steps run).

Section Orchestrator.

Variable nextStep : Planner.
Variable stopWhen : list Step -> bool.
(** The transcript the response answers: it ends with the new user message. *)
Variable transcript : list Message.t.

(** The transcript the planner sees: the messages so far and the assistant
    message in progress. *)
Definition current (run : Run.t) : list Message.t :=
  transcript ++ [Message.mk "response" assistant (Some (Run.message run))].

(** Modelled from the spec: the reasoning loop of section 4.2.  Each
    iteration asks the planner, performs the step and counts it; the loop
    ends on [stop] or when the stop condition is met.  [fuel] bounds the
    iterations of the model, not of the program: with no fuel left there is
    no result. *)
Fixpoint reasoning (fuel : nat) (run : Run.t) : Rand Run.t :=
  match fuel with
  | O => fun _ _ => None
  | S fuel' =>
      let s := nextStep (current run) in
      run' ← perform run s;
      let run'' := noted run' s in
      match s with
      | stop => mret (finish run'')
      | _ =>
          if stopWhen (Run.steps run'') then mret (finish run'')
          else reasoning fuel' run''
      end
  end.

End Orchestrator.

(** Modelled from the spec: [streamText(options)].  A new user message has
    arrived ([Idle]), and the response starts reasoning on an empty assistant
    message. *)
Definition streamText (options : StreamText.t) (nextStep : Planner) (fuel : nat)
  : Rand Run.t :=
  reasoning nextStep (StreamText.stopWhen options) (StreamText.messages options)
    fuel (Run.mk Reasoning [] [] []).

End Engine.

(** ** A sample response, for the examples

    The planner first asks [whatToWear] for four pieces of gear, then asks
    for the weather on Titan, then closes with a text and stops. *)

Definition four_suggestions : WeatherWear.t :=
  WeatherWear.mk
    [ WeatherWearItem.mk "Aurora visor" "Polarized against ion glare";
      WeatherWearItem.mk "Gravity boots" "Adaptive soles for low-g dunes";
      WeatherWearItem.mk "Flux cloak" "Sheds static from exposed alloys";
      WeatherWearItem.mk "Plasma scarf" "Warm in crystalline snowfall" ].

Definition sample_planner : Planner :=
  fun transcript =>
    match last transcript with
    | Some m =>
        match length (default [] (Message.parts m)) with
        | 0 => call_tool (call_whatToWear four_suggestions)
        | 1 => call_tool (call_weather (LocationInput.mk "Titan"))
        | 2 => emit_text "Clear skies over Titan; pack light."
        | _ => stop
        end
    | None => stop
    end.

(** A planner that never stops of its own: it asks for celestial events at
    every step. *)
Definition relentless_planner : Planner :=
  fun _ => call_tool (call_celestialEvents (LocationInput.mk "Neptune")).

Definition sample_request : Request.t :=
  Request.mk [Message.mk "u1" user (Some [TextPart "weather in Titan"])] [].

Definition sample_run : Engine.Run.t :=
  Eval vm_compute in
    match Engine.streamText (POST sample_request) sample_planner 7 sample_draws 0 with
    | Some (run, _) => run
    | None => Engine.Run.mk Engine.Idle [] [] []
    end.

(** A settled gear part, and a page with a text, that part and a weather
    call in progress, for the examples. *)
Definition gear_part : Part :=
  ToolPartOf
    (ToolPart.mk tool_whatToWear output_available None
       (Some (out_whatToWear
                (WeatherWear.mk [WeatherWearItem.mk "Ion cloak" "Sheds static."])))
       None).

Definition sample_home : Home.t :=
  Home.mk
    [Message.mk "m1" user (Some [TextPart "Gear for Europa?"]);
     Message.mk "m2" assistant
       (Some [TextPart "On it."; gear_part;
              ToolPartOf (ToolPart.mk tool_weather input_streaming None None None)])]
    "streaming" "".

(** * Properties *)

(** ** Draws and indices *)

Lemma bind_run {A B} (m : Rand A) (f : A -> Rand B) draws pos a pos' :
  m draws pos = Some (a, pos') -> (m ≫= f) draws pos = f a draws pos'.
Proof. intros H. unfold mbind, Rand_bind. now rewrite H. Qed.

(** *** Rounding to binary64 *)

Local Open Scope Q_scope.

Lemma pow2_pos k : 0 < pow2 k.
Proof. apply Qpower_0_lt. reflexivity. Qed.

Lemma pow2_add a b : pow2 (a + b) == pow2 a * pow2 b.
Proof. apply Qpower_plus. discriminate. Qed.

Lemma pow2_le a b : (a <= b)%Z -> pow2 a <= pow2 b.
Proof. intros H. apply Qpower_le_compat_l; [assumption | discriminate]. Qed.

Lemma pow2_lt_inv a b : pow2 a < pow2 b -> (a < b)%Z.
Proof. intros H. eapply Qpower_lt_compat_l_inv; [exact H | reflexivity]. Qed.

Lemma pow2_Z k : (0 <= k)%Z -> pow2 k == inject_Z (2 ^ k).
Proof. intros H. unfold pow2. now rewrite Zpower_Qpower. Qed.

Lemma ilog2_spec x : 0 < x -> pow2 (ilog2 x) <= x /\ x < pow2 (ilog2 x + 1).
Proof.
  intros Hx. destruct x as [a b]. unfold ilog2. cbn [Qnum Qden].
  assert (Ha : (0 < a)%Z) by (unfold Qlt in Hx; simpl in Hx; lia).
  set (la := Z.log2 a). set (lb := Z.log2 (Z.pos b)).
  destruct (Z.log2_spec a Ha) as [Ha1 Ha2]. fold la in Ha1, Ha2.
  destruct (Z.log2_spec (Z.pos b) ltac:(lia)) as [Hb1 Hb2]. fold lb in Hb1, Hb2.
  assert (Hla : (0 <= la)%Z) by apply Z.log2_nonneg.
  assert (Hlb : (0 <= lb)%Z) by apply Z.log2_nonneg.
  assert (Hlow : pow2 (la - lb - 1) <= a # b).
  { apply (Qmult_le_r _ _ (pow2 (lb + 1))); [apply pow2_pos |].
    rewrite <- pow2_add. replace (la - lb - 1 + (lb + 1))%Z with la by lia.
    rewrite !pow2_Z by lia. unfold Qle, Qmult, inject_Z. cbn [Qnum Qden].
    replace (lb + 1)%Z with (Z.succ lb) by lia. nia. }
  assert (Hhigh : a # b < pow2 (la - lb + 1)).
  { apply (Qmult_lt_r _ _ (pow2 lb)); [apply pow2_pos |].
    rewrite <- pow2_add. replace (la - lb + 1 + lb)%Z with (la + 1)%Z by lia.
    rewrite !pow2_Z by lia. unfold Qlt, Qmult, inject_Z. cbn [Qnum Qden].
    replace (la + 1)%Z with (Z.succ la) by lia. nia. }
  destruct (Qle_bool (pow2 (la - lb)) (a # b)) eqn:E.
  - apply Qle_bool_iff in E. split; assumption.
  - assert (Hlt : a # b < pow2 (la - lb)).
    { apply Qnot_le_lt. intros H. apply Qle_bool_iff in H. congruence. }
    split; [assumption |]. now replace (la - lb - 1 + 1)%Z with (la - lb)%Z by lia.
Qed.

Lemma nearest_even_upper y : inject_Z (nearest_even y) <= y + (1 # 2).
Proof.
  unfold nearest_even.
  pose proof (Qfloor_le y) as Hf.
  destruct (y - inject_Z (Qfloor y) ?= 1 # 2) eqn:E.
  - apply Qeq_alt in E.
    destruct (Z.even (Qfloor y)).
    + apply Qle_trans with y; [assumption |].
      rewrite <- (Qplus_0_r y) at 1. apply Qplus_le_r. discriminate.
    + rewrite inject_Z_plus. rewrite <- E.
      setoid_replace (inject_Z (Qfloor y) + inject_Z 1)
        with (y + (1 - (y - inject_Z (Qfloor y)))) using relation Qeq by ring.
      apply Qplus_le_r. rewrite E. discriminate.
  - apply Qle_trans with y; [assumption |].
    rewrite <- (Qplus_0_r y) at 1. apply Qplus_le_r. discriminate.
  - apply Qgt_alt in E. rewrite inject_Z_plus.
    setoid_replace (inject_Z (Qfloor y) + inject_Z 1)
      with (y + (1 - (y - inject_Z (Qfloor y)))) using relation Qeq by ring.
    apply Qplus_le_r.
    apply Qplus_le_l with (z := (y - inject_Z (Qfloor y)) - (1 # 2)).
    setoid_replace (1 - (y - inject_Z (Qfloor y)) + (y - inject_Z (Qfloor y) - (1 # 2)))
      with (1 # 2) using relation Qeq by ring.
    setoid_replace ((1 # 2) + (y - inject_Z (Qfloor y) - (1 # 2)))
      with (y - inject_Z (Qfloor y)) using relation Qeq by ring.
    now apply Qlt_le_weak.
Qed.

Lemma nearest_even_nonneg y : 0 <= y -> (0 <= nearest_even y)%Z.
Proof.
  intros Hy. unfold nearest_even.
  assert (H : (0 <= Qfloor y)%Z).
  { change 0%Z with (Qfloor (inject_Z 0)). now apply Qfloor_resp_le. }
  destruct (_ ?= _); [destruct (Z.even _) | |]; lia.
Qed.

Lemma round_pos_nonneg x : 0 < x -> 0 <= round_pos x.
Proof.
  intros Hx. unfold round_pos.
  apply Qmult_le_0_compat; [| apply Qlt_le_weak, pow2_pos].
  change 0 with (inject_Z 0). rewrite <- Zle_Qle.
  apply nearest_even_nonneg. apply Qlt_le_weak.
  apply Qlt_shift_div_l; [apply pow2_pos |]. now rewrite Qmult_0_l.
Qed.

Lemma round_pos_upper x E :
  0 < x -> x < pow2 E -> (-1021 <= E)%Z -> round_pos x <= x + pow2 (E - 54).
Proof.
  intros Hx HE Hmin. unfold round_pos.
  set (e := Z.max (ilog2 x - 52) (-1074)).
  destruct (ilog2_spec x Hx) as [Hlo _].
  assert (He : (e <= E - 53)%Z).
  { assert (ilog2 x < E)%Z by (apply pow2_lt_inv; eapply Qle_lt_trans; eassumption).
    unfold e. lia. }
  apply Qle_trans with ((x / pow2 e + (1 # 2)) * pow2 e).
  - apply Qmult_le_compat_r; [apply nearest_even_upper | apply Qlt_le_weak, pow2_pos].
  - setoid_replace ((x / pow2 e + (1 # 2)) * pow2 e) with (x + (1 # 2) * pow2 e)
      using relation Qeq by (field; apply Qnot_eq_sym, Qlt_not_eq, pow2_pos).
    apply Qplus_le_r.
    change (1 # 2) with (pow2 (-1)). rewrite <- pow2_add.
    apply pow2_le. lia.
Qed.

Lemma binary64_pos x : 0 < x -> binary64 x = round_pos x.
Proof. intros H. unfold binary64. apply Qgt_alt in H. now rewrite H. Qed.

Lemma below_one r : is_binary64 r -> 0 <= r -> r < 1 -> r <= 1 - pow2 (-53).
Proof.
  intros Hrep H0 H1.
  destruct (Qlt_le_dec r (1 # 2)) as [Hhalf | Hhalf].
  - apply Qlt_le_weak. eapply Qlt_le_trans; [exact Hhalf |]. vm_compute. discriminate.
  - assert (Hpos : 0 < r) by (eapply Qlt_le_trans; [| exact Hhalf]; reflexivity).
    unfold is_binary64 in Hrep. rewrite (binary64_pos r Hpos) in Hrep.
    destruct (ilog2_spec r Hpos) as [Hlo Hhi].
    assert (Hlog : ilog2 r = (-1)%Z).
    { assert (ilog2 r < 0)%Z
        by (apply pow2_lt_inv; eapply Qle_lt_trans; [exact Hlo | exact H1]).
      assert (-1 < ilog2 r + 1)%Z
        by (apply pow2_lt_inv; eapply Qle_lt_trans; [exact Hhalf | exact Hhi]).
      lia. }
    unfold round_pos in Hrep. rewrite Hlog in Hrep.
    change (Z.max (-1 - 52) (-1074)) with (-53)%Z in Hrep.
    set (m := nearest_even (r / pow2 (-53))) in Hrep.
    assert (Hm : (m <= 2 ^ 53 - 1)%Z).
    { assert (inject_Z m < inject_Z (2 ^ 53)); [| rewrite <- Zlt_Qlt in *; lia].
      apply (Qmult_lt_r _ _ (pow2 (-53))); [apply pow2_pos |].
      rewrite Hrep. eapply Qlt_le_trans; [exact H1 |]. vm_compute. discriminate. }
    rewrite <- Hrep.
    apply Qle_trans with (inject_Z (2 ^ 53 - 1) * pow2 (-53)).
    + apply Qmult_le_compat_r; [now rewrite <- Zle_Qle | apply Qlt_le_weak, pow2_pos].
    + vm_compute. discriminate.
Qed.

Lemma log2_up_bounds n :
  (0 < n)%Z -> pow2 (Z.log2_up n - 1) < inject_Z n /\ inject_Z n <= pow2 (Z.log2_up n).
Proof.
  intros Hn. destruct (Z.eq_dec n 1%Z) as [-> | Hne].
  - split; vm_compute; [reflexivity | discriminate].
  - destruct (Z.log2_up_spec n ltac:(lia)) as [Hlo Hhi].
    assert (0 < Z.log2_up n)%Z by (apply Z.log2_up_pos; lia).
    replace (Z.pred (Z.log2_up n)) with (Z.log2_up n - 1)%Z in Hlo by lia.
    rewrite !pow2_Z by lia. now rewrite <- Zlt_Qlt, <- Zle_Qle.
Qed.

Lemma floor_times_range r n :
  is_binary64 r -> 0 <= r -> r < 1 -> (0 < n)%Z ->
  (0 <= Qfloor (binary64 (r * inject_Z n)) < n)%Z.
Proof.
  intros Hrep H0 H1 Hn.
  assert (Hnq : 0 < inject_Z n) by (change 0 with (inject_Z 0); now rewrite <- Zlt_Qlt).
  assert (Hx0 : 0 <= r * inject_Z n)
    by (apply Qmult_le_0_compat; [assumption | now apply Qlt_le_weak]).
  unfold binary64. destruct (r * inject_Z n ?= 0) eqn:E.
  - change (Qfloor 0) with 0%Z. lia.
  - apply Qlt_alt in E. exfalso. eapply Qlt_irrefl, Qle_lt_trans; eassumption.
  - apply Qgt_alt in E.
    pose proof (round_pos_nonneg _ E) as Hlow.
    destruct (log2_up_bounds n Hn) as [HE1 HE2].
    pose proof (Z.log2_up_nonneg n) as HEnn.
    pose proof (below_one r Hrep H0 H1) as Hr.
    assert (Hx : r * inject_Z n <= inject_Z n - inject_Z n * pow2 (-53)).
    { setoid_replace (inject_Z n - inject_Z n * pow2 (-53))
        with ((1 - pow2 (-53)) * inject_Z n) using relation Qeq by ring.
      apply Qmult_le_compat_r; [assumption | now apply Qlt_le_weak]. }
    assert (Hlt : r * inject_Z n < pow2 (Z.log2_up n)).
    { eapply Qlt_le_trans; [| exact HE2].
      rewrite <- (Qmult_1_l (inject_Z n)) at 2. now apply Qmult_lt_compat_r. }
    pose proof (round_pos_upper _ _ E Hlt ltac:(lia)) as Hup.
    assert (Hfin : round_pos (r * inject_Z n) < inject_Z n).
    { eapply Qle_lt_trans; [exact Hup |].
      eapply Qle_lt_trans; [apply Qplus_le_l; exact Hx |].
      setoid_replace (inject_Z n) with
        (inject_Z n - inject_Z n * pow2 (-53) + inject_Z n * pow2 (-53))
        using relation Qeq at 3 by ring.
      apply Qplus_lt_r.
      replace (Z.log2_up n - 54)%Z with ((Z.log2_up n - 1) + -53)%Z by lia.
      rewrite pow2_add. apply Qmult_lt_compat_r; [apply pow2_pos | assumption]. }
    split.
    + change 0%Z with (Qfloor (inject_Z 0)). now apply Qfloor_resp_le.
    + rewrite Zlt_Qlt. eapply Qle_lt_trans; [apply Qfloor_le | exact Hfin].
Qed.

(** [0.1 * 3] is [0.30000000000000004]. *)
Example times_tenth_by_three :
  times (3602879701896397 # 36028797018963968) 3 ==
    1351079888211149 # 4503599627370496.
Proof. vm_compute. reflexivity. Qed.

(** The rounding of the product is part of the result: for this draw the
    exact product lies just below 182 and the binary64 product is 182. *)
Example floor_follows_rounding :
  let r := 7451410292558457 # 9007199254740992 in
  is_binary64 r /\ r < 1 /\
  Qfloor (r * 220) = 181%Z /\ Math_floor (times r 220) = 182%Z.
Proof. vm_compute. repeat split. Qed.

Local Close Scope Q_scope.

Lemma index_lookup {T} (items : list T) (k : Z) :
  (0 <= k)%Z -> index items k = items !! Z.to_nat k.
Proof.
  intros Hk. unfold index.
  destruct (k <? 0)%Z eqn:E; [apply Z.ltb_lt in E; lia | reflexivity].
Qed.

Lemma index_in_range {T} (items : list T) (k : Z) :
  (0 <= k < Z.of_nat (length items))%Z -> exists x, index items k = Some x /\ x ∈ items.
Proof.
  intros [Hk0 Hk1]. rewrite index_lookup by assumption.
  destruct (lookup_lt_is_Some_2 items (Z.to_nat k)) as [x Hx]; [lia |].
  exists x. split; [assumption |]. eapply list_elem_of_lookup_2; eassumption.
Qed.

(** The exchange of the shuffle permutes the pool. *)
Lemma swap_spec {T} (pool : list T) (i : nat) (j : Z) :
  i < length pool -> (0 <= j <= Z.of_nat i)%Z ->
  exists pool', swap pool (Z.of_nat i) j = Some pool' /\ pool' ≡ₚ pool.
Proof.
  intros Hi Hj. unfold swap.
  destruct (index_in_range pool j) as [pj [Hpj _]]; [lia |].
  destruct (index_in_range pool (Z.of_nat i)) as [pi [Hpi _]]; [lia |].
  rewrite Hpj, Hpi. eexists. split; [reflexivity |].
  rewrite index_lookup in Hpj, Hpi by lia.
  now apply Permutation_insert_swap.
Qed.

Lemma pools_not_empty :
  Forall (fun s => s <> "") conditionPool /\ Forall (fun s => s <> "") windPool /\
  Forall (fun s => s <> "") radiationPool /\ Forall (fun s => s <> "") advisoryPool.
Proof. repeat split; repeat constructor; discriminate. Qed.

Lemma sample_draws_unit : unit_draws sample_draws.
Proof.
  intros n. unfold sample_draws.
  pose proof (Nat.mod_upper_bound n 8 ltac:(lia)) as Hk.
  revert Hk. generalize (n mod 8). intros k Hk.
  do 8 (destruct k as [|k]; [vm_compute; intuition discriminate |]).
  lia.
Defined.

(** [step H]: run the first computation of a bind with its result [H]. *)
Ltac step H := rewrite (bind_run _ _ _ _ _ _ H).

(** ** The tools on a tape within the contract *)

Section Tape.

Variable draws : nat -> Q.
Hypothesis Hdraws : unit_draws draws.

(** [Math.floor(Math.random() * n)] is an index below [n]. *)
Lemma draw_index (pos : nat) (n : Z) :
  (0 < n)%Z -> (0 <= Math_floor (times (draws pos) (inject_Z n)) < n)%Z.
Proof.
  intros Hn. destruct (Hdraws pos) as (Hrep & H0 & H1).
  now apply floor_times_range.
Qed.

Lemma randomOf_spec {T} (items : list T) (pos : nat) :
  items <> [] ->
  exists x, randomOf items draws pos = Some (x, S pos) /\ x ∈ items.
Proof.
  intros Hne.
  destruct (index_in_range items
              (Math_floor (times (draws pos) (inject_Z (Z.of_nat (length items))))))
    as [x [Hx Hin]].
  { apply draw_index. destruct items; [congruence | simpl; lia]. }
  exists x. split; [| assumption].
  unfold randomOf. step (eq_refl : Math_random draws pos = Some (draws pos, S pos)).
  unfold defined. now rewrite Hx.
Qed.

(** The loop of [takeRandom] draws once per iteration and leaves a
    permutation of the pool. *)
Lemma shuffle_spec {T} (i : nat) :
  forall (pool : list T) (pos : nat),
    i < length pool \/ i = 0 ->
    exists pool', shuffle i pool draws pos = Some (pool', pos + i) /\ pool' ≡ₚ pool.
Proof.
  induction i as [|i IH]; intros pool pos Hi.
  - exists pool. simpl. unfold mret, Rand_ret. rewrite Nat.add_0_r. split; reflexivity.
  - destruct Hi as [Hi | Hi]; [| discriminate].
    destruct (swap_spec pool (S i)
                (Math_floor (times (draws pos) (inject_Z (Z.of_nat (S i) + 1)))))
      as [pool1 [Hswap Hperm1]]; [assumption | |].
    { pose proof (draw_index pos (Z.of_nat (S i) + 1)). lia. }
    destruct (IH pool1 (S pos)) as [pool2 [Hrec Hperm2]].
    { left. rewrite (Permutation_length Hperm1). lia. }
    exists pool2. split; [| now rewrite Hperm2].
    cbn [shuffle]. unfold mbind, Rand_bind, Math_random, defined.
    rewrite Hswap, Hrec. do 2 f_equal. lia.
Qed.

Lemma takeRandom_spec {T} (items : list T) (count pos : nat) :
  exists out,
    takeRandom items count draws pos = Some (out, pos + (length items - 1)) /\
    length out = Nat.min count (length items) /\
    out ⊆+ items.
Proof.
  destruct (shuffle_spec (length items - 1) items pos) as [pool [Hs Hperm]]; [lia |].
  exists (take (Nat.min count (length pool)) pool).
  unfold takeRandom. step Hs. unfold mret, Rand_ret.
  split; [reflexivity |]. split.
  - rewrite length_take, (Permutation_length Hperm). lia.
  - rewrite <- Hperm. apply sublist_submseteq, sublist_take.
Qed.

Lemma mapR_spec {A B} (f : A -> Rand B) (P : A -> B -> Prop) (cost : nat) :
  (forall x pos, exists y, f x draws pos = Some (y, pos + cost) /\ P x y) ->
  forall xs pos,
    exists ys, mapR f xs draws pos = Some (ys, pos + cost * length xs) /\
               Forall2 P xs ys.
Proof.
  intros Hf. induction xs as [|x xs IH]; intros pos.
  - exists []. simpl. unfold mret, Rand_ret. split; [do 2 f_equal; lia | constructor].
  - destruct (Hf x pos) as [y [Hy HP]].
    destruct (IH (pos + cost)) as [ys [Hys HPs]].
    exists (y :: ys). split; [| now constructor].
    cbn [mapR]. step Hy. step Hys. unfold mret, Rand_ret. do 2 f_equal. simpl. lia.
Qed.

Lemma weather_execute_run (input : LocationInput.t) (pos : nat) :
  exists c w r a,
    c ∈ conditionPool /\ w ∈ windPool /\ r ∈ radiationPool /\ a ∈ advisoryPool /\
    weather.execute input draws pos =
      Some (WeatherResult.mk (LocationInput.location input)
              (42 + Math_floor (times (draws pos) 220)) c w r a,
            pos + 5).
Proof.
  destruct (randomOf_spec conditionPool (S pos)) as [c [Hc Hcin]]; [discriminate |].
  destruct (randomOf_spec windPool (S (S pos))) as [w [Hw Hwin]]; [discriminate |].
  destruct (randomOf_spec radiationPool (S (S (S pos)))) as [r [Hr Hrin]];
    [discriminate |].
  destruct (randomOf_spec advisoryPool (S (S (S (S pos))))) as [a [Ha Hain]];
    [discriminate |].
  exists c, w, r, a. repeat (split; [assumption |]).
  unfold weather.execute.
  step (eq_refl : Math_random draws pos = Some (draws pos, S pos)).
  step Hc. step Hw. step Hr. step Ha.
  unfold mret, Rand_ret. do 2 f_equal. lia.
Qed.

Lemma hazardScan_execute_spec (input : LocationInput.t) (pos : nat) :
  exists report,
    hazardScan.execute input draws pos = Some (report, pos + 6) /\
    HazardScanReport.location report = LocationInput.location input /\
    length (HazardScanReport.hazards report) = 3.
Proof.
  destruct (randomOf_spec [Low; Elevated; Critical] pos) as [risk [Hrisk _]];
    [discriminate |].
  destruct (takeRandom_spec hazardPool 3 (S pos)) as [taken [Htaken [Hlen _]]].
  eexists. split.
  - unfold hazardScan.execute. step Hrisk. step Htaken.
    unfold mret, Rand_ret. do 2 f_equal. simpl. lia.
  - cbn [HazardScanReport.location HazardScanReport.hazards].
    split; [reflexivity |]. now rewrite length_map, Hlen.
Qed.

Lemma navigationWindows_execute_spec (input : LocationInput.t) (pos : nat) :
  exists taken,
    navigationWindows.execute input draws pos =
      Some (NavigationWindowGuide.mk
              (map (fun window =>
                      NavigationWindow.mk (NavigationWindow.label window)
                        (NavigationWindow.window window)
                        (NavigationWindow.note window ++ " (" ++
                         LocationInput.location input ++ ").")) taken),
            pos + 4) /\
    length taken = 3 /\ taken ⊆+ windowPool.
Proof.
  destruct (takeRandom_spec windowPool 3 pos) as [taken [Htaken [Hlen Hsub]]].
  exists taken. split; [| split; assumption].
  unfold navigationWindows.execute. now step Htaken.
Qed.

Lemma celestialEvents_execute_spec (input : LocationInput.t) (pos : nat) :
  exists feed,
    celestialEvents.execute input draws pos = Some (feed, pos + 8) /\
    length (CelestialEventFeed.events feed) = 3.
Proof.
  destruct (takeRandom_spec eventPool 3 pos) as [taken [Htaken [Hlen _]]].
  change (length eventPool - 1) with 5 in Htaken.
  change (Nat.min 3 (length eventPool)) with 3 in Hlen.
  destruct (mapR_spec
              (fun event =>
                 time ← randomOf eventTimePool;
                 mret (CelestialEvent.mk (EventEntry.title event) time
                         (EventEntry.detail event)))
              (fun _ _ => True) 1) with (xs := taken) (pos := pos + 5)
    as [events [Hevents Hall]].
  { intros event p.
    destruct (randomOf_spec eventTimePool p) as [time [Htime _]]; [discriminate |].
    eexists. split; [| exact I].
    step Htime. unfold mret, Rand_ret. do 2 f_equal. lia. }
  exists (CelestialEventFeed.mk events). split.
  - unfold celestialEvents.execute. step Htaken. step Hevents.
    unfold mret, Rand_ret. do 2 f_equal. lia.
  - cbn [CelestialEventFeed.events].
    apply Forall2_length in Hall. congruence.
Qed.

End Tape.

(** C3: on every input location and every tape of draws in [0, 1), the
    [execute] of [weather] returns an object whose [location] is the input
    location, whose [temperature] is an integer from 42 to 261, and whose
    [conditions], [wind], [radiation] and [advisory] are non-empty strings. *)
Theorem weather_execute_result (location : string) (draws : nat -> Q) (pos : nat) :
  unit_draws draws ->
  exists result pos',
    weather.execute (LocationInput.mk location) draws pos = Some (result, pos') /\
    WeatherResult.location result = location /\
    (42 <= WeatherResult.temperature result <= 261)%Z /\
    WeatherResult.conditions result <> "" /\
    WeatherResult.wind result <> "" /\
    WeatherResult.radiation result <> "" /\
    WeatherResult.advisory result <> "".
Proof.
  intros Hd.
  destruct pools_not_empty as (Pc & Pw & Pr & Pa).
  rewrite Forall_forall in Pc, Pw, Pr, Pa.
  destruct (weather_execute_run draws Hd (LocationInput.mk location) pos)
    as (c & w & r & a & Hc & Hw & Hr & Ha & Hrun).
  pose proof (draw_index draws Hd pos 220 ltac:(lia)) as Ht.
  change (inject_Z 220) with 220%Q in Ht.
  eexists _, _. split; [exact Hrun |].
  cbn [WeatherResult.location WeatherResult.temperature WeatherResult.conditions
       WeatherResult.wind WeatherResult.radiation WeatherResult.advisory
       LocationInput.location].
  repeat split; auto; lia.
Qed.

Lemma weather_execute_result_witness :
  exists result pos',
    weather.execute (LocationInput.mk "Titan") sample_draws 0 = Some (result, pos') /\
    WeatherResult.location result = "Titan" /\
    (42 <= WeatherResult.temperature result <= 261)%Z /\
    WeatherResult.conditions result <> "" /\
    WeatherResult.wind result <> "" /\
    WeatherResult.radiation result <> "" /\
    WeatherResult.advisory result <> "".
Proof. exact (weather_execute_result "Titan" sample_draws 0 sample_draws_unit). Defined.

Lemma whatToWear_accepts (input : WeatherWear.t) :
  whatToWear.inputSchema input = [] <->
  1 <= length (WeatherWear.suggestions input) <= 3.
Proof.
  unfold whatToWear.inputSchema.
  destruct (Nat.ltb_spec (length (WeatherWear.suggestions input)) 1);
    destruct (Nat.ltb_spec 3 (length (WeatherWear.suggestions input)));
    simpl; split; intros; try discriminate; try lia; reflexivity.
Qed.

(** C4: on every tape of draws in [0, 1), the [hazards] of [hazardScan], the
    [windows] of [navigationWindows] and the [events] of [celestialEvents]
    have at most 3 entries, and for every input that [whatToWear] accepts
    its [suggestions] have between 1 and 3 entries. *)
Theorem tool_list_bounds (draws : nat -> Q) (pos : nat) :
  unit_draws draws ->
  (forall input, exists report pos',
      hazardScan.execute input draws pos = Some (report, pos') /\
      length (HazardScanReport.hazards report) <= 3) /\
  (forall input, exists guide pos',
      navigationWindows.execute input draws pos = Some (guide, pos') /\
      length (NavigationWindowGuide.windows guide) <= 3) /\
  (forall input, exists feed pos',
      celestialEvents.execute input draws pos = Some (feed, pos') /\
      length (CelestialEventFeed.events feed) <= 3) /\
  (forall input, whatToWear.inputSchema input = [] ->
    exists out pos',
      whatToWear.execute input draws pos = Some (out, pos') /\
      1 <= length (WeatherWear.suggestions out) <= 3).
Proof.
  intros Hd. split; [| split; [| split]]; intros input.
  - destruct (hazardScan_execute_spec draws Hd input pos) as [report [Hrun [_ Hlen]]].
    exists report, (pos + 6). split; [assumption | lia].
  - destruct (navigationWindows_execute_spec draws Hd input pos)
      as [taken [Hrun [Hlen _]]].
    eexists _, _. split; [exact Hrun |].
    cbn [NavigationWindowGuide.windows]. rewrite length_map. lia.
  - destruct (celestialEvents_execute_spec draws Hd input pos) as [feed [Hrun Hlen]].
    exists feed, (pos + 8). split; [assumption | lia].
  - intros Hok. apply whatToWear_accepts in Hok.
    eexists _, _. split; [reflexivity |].
    cbn [WeatherWear.suggestions]. lia.
Qed.

Lemma tool_list_bounds_witness :
  (exists report pos',
      hazardScan.execute (LocationInput.mk "Europa") sample_draws 0 = Some (report, pos') /\
      length (HazardScanReport.hazards report) <= 3) /\
  (exists out pos',
      whatToWear.execute
        (WeatherWear.mk [WeatherWearItem.mk "Aurora visor" "Polarized against ion glare"])
        sample_draws 0 = Some (out, pos') /\
      1 <= length (WeatherWear.suggestions out) <= 3).
Proof.
  destruct (tool_list_bounds sample_draws 0 sample_draws_unit) as (Hh & _ & _ & Hw).
  split; [apply Hh | apply Hw; reflexivity].
Defined.

Lemma string_app_assoc (a b c : string) : (a ++ b) ++ c = a ++ b ++ c.
Proof.
  induction a as [|ch a IH]; [reflexivity |].
  change (String ch ((a ++ b) ++ c) = String ch (a ++ b ++ c)). now rewrite IH.
Qed.

(** C9: on every input location and every tape of draws in [0, 1),
    [navigationWindows] returns three windows, and each window that it
    returns has a note that is one of the five notes of [windowPool]
    followed by the location in parentheses and a full stop, so the location
    stands verbatim in the note. *)
Theorem navigationWindows_notes (location : string) (draws : nat -> Q) (pos : nat) :
  unit_draws draws ->
  length (map NavigationWindow.note windowPool) = 5 /\
  exists guide pos',
    navigationWindows.execute (LocationInput.mk location) draws pos = Some (guide, pos') /\
    length (NavigationWindowGuide.windows guide) = 3 /\
    forall w, w ∈ NavigationWindowGuide.windows guide ->
      (exists n, n ∈ map NavigationWindow.note windowPool /\
                 NavigationWindow.note w = n ++ " (" ++ location ++ ").") /\
      (exists before after, NavigationWindow.note w = before ++ location ++ after).
Proof.
  intros Hd. split; [reflexivity |].
  destruct (navigationWindows_execute_spec draws Hd (LocationInput.mk location) pos)
    as [taken [Hrun [Hlen Hsub]]].
  eexists _, _. split; [exact Hrun |].
  cbn [NavigationWindowGuide.windows LocationInput.location].
  split; [now rewrite length_map |].
  intros w Hw. apply list_elem_of_In, in_map_iff in Hw.
  destruct Hw as [x [<- Hx]]. apply list_elem_of_In in Hx.
  cbn [NavigationWindow.note]. split.
  - exists (NavigationWindow.note x). split; [| reflexivity].
    apply list_elem_of_In, in_map, list_elem_of_In.
    eapply elem_of_submseteq; eassumption.
  - exists (NavigationWindow.note x ++ " ("), ").".
    now rewrite string_app_assoc.
Qed.

Lemma navigationWindows_notes_witness :
  exists guide pos',
    navigationWindows.execute (LocationInput.mk "Titan") sample_draws 0 = Some (guide, pos') /\
    length (NavigationWindowGuide.windows guide) = 3 /\
    forall w, w ∈ NavigationWindowGuide.windows guide ->
      (exists n, n ∈ map NavigationWindow.note windowPool /\
                 NavigationWindow.note w = n ++ " (" ++ "Titan" ++ ").") /\
      (exists before after, NavigationWindow.note w = before ++ "Titan" ++ after).
Proof. exact (proj2 (navigationWindows_notes "Titan" sample_draws 0 sample_draws_unit)). Defined.

(** C10: the output of [celestialEvents] does not depend on the location: on
    the same tape of draws, read from the same position, two inputs give the
    same result, from [execute] and from the registry's [invoke] alike. *)
Theorem celestialEvents_ignores_location (input1 input2 : LocationInput.t)
    (draws : nat -> Q) (pos : nat) :
  celestialEvents.execute input1 draws pos = celestialEvents.execute input2 draws pos /\
  Engine.invoke (call_celestialEvents input1) draws pos =
    Engine.invoke (call_celestialEvents input2) draws pos.
Proof. split; reflexivity. Qed.

(** By contrast the location reaches the output of [navigationWindows]. *)
Example navigationWindows_reads_location :
  navigationWindows.execute (LocationInput.mk "Titan") sample_draws 0 <>
  navigationWindows.execute (LocationInput.mk "Europa") sample_draws 0.
Proof. vm_compute. discriminate. Qed.

(** ** The console page *)

Lemma tool_part_counted (part : Part) :
  String.prefix "tool-" (part_type part) &&
    bool_decide (part_state part = Some output_available) =
  bool_decide (part_state part = Some output_available).
Proof.
  destruct part as [text | tp]; [reflexivity |].
  cbn [part_type part_state].
  destruct (ToolPart.toolName tp); reflexivity.
Qed.

Lemma filter_ext_all {A} (f g : A -> bool) (l : list A) :
  (forall x, f x = g x) -> List.filter f l = List.filter g l.
Proof. intros H. induction l as [|x l IH]; simpl; [reflexivity |]. now rewrite H, IH. Qed.

Lemma toolActivations_from (messages : list Message.t) (start : nat) :
  fold_left
    (fun count message =>
       (count +
        length
          (List.filter
             (fun part =>
                String.prefix "tool-" (part_type part) &&
                bool_decide (part_state part = Some output_available))
             (default [] (Message.parts message))))%nat)
    messages start =
  start + Home.output_available_count messages.
Proof.
  unfold Home.output_available_count, Home.all_parts.
  revert start. induction messages as [|m ms IH]; intros start.
  - simpl. lia.
  - cbn [fold_left map concat]. rewrite IH.
    rewrite List.filter_app, length_app.
    rewrite (filter_ext_all _ _ _ tool_part_counted). lia.
Qed.

(** C7: for every transcript the "tool runs" metric of the page,
    [toolActivations], is the number of parts, across all messages, whose
    state is [output-available]; no other part is counted. *)
Theorem toolActivations_counts_output_available (h : Home.t) :
  Home.toolActivations h = Home.output_available_count (Home.messages h).
Proof. unfold Home.toolActivations. now rewrite toolActivations_from. Qed.

(** The guarded path: [handleSubmit] sends nothing while a response streams,
    whatever the draft. *)
Lemma handleSubmit_guarded (trim : string -> string) (h : Home.t) :
  Home.isStreaming h = true -> Home.handleSubmit trim h = [].
Proof.
  intros Hs. unfold Home.handleSubmit. rewrite Hs.
  now rewrite orb_true_r.
Qed.

(** C6 (the code departs from the claim): while the status is ["streaming"]
    and a tool part of the response is still [input-available], a click on
    the first quick prompt hands its text to [sendMessage]; [handleSubmit]
    sends nothing in the same state. *)
Theorem handleQuickPrompt_sends_while_streaming :
  let pending :=
    ToolPartOf
      (ToolPart.mk tool_weather input_available
         (Some (call_weather (LocationInput.mk "Europa"))) None None) in
  let h :=
    Home.mk
      [ Message.mk "m1" user (Some [TextPart "weather on Europa"]);
        Message.mk "m2" assistant (Some [pending]) ]
      "streaming" "and the hazards?" in
  let prompt := default "" (snd <$> quickPrompts !! 0) in
  prompt <> "" /\
  Home.isStreaming h = true /\
  Home.sent (Home.handleQuickPrompt h prompt) = [prompt] /\
  (forall trim, Home.sent (Home.handleSubmit trim h) = []).
Proof.
  intros pending h prompt. split; [discriminate |].
  split; [reflexivity |]. split; [reflexivity |].
  intros trim. now rewrite handleSubmit_guarded.
Qed.

(** ** The limits of a response *)

Lemma stepCountIs_met (n : nat) (steps : list Step) :
  stepCountIs n steps = true <-> length steps = n.
Proof. unfold stepCountIs. apply Nat.eqb_eq. Qed.

(** C8 (as amended): the step cap and the response timeout are fixed by the
    code at 7 steps and 30 seconds; whatever the environment and the request
    hold, the stop condition is met at exactly 7 steps and the limit is 30,
    and the route reads nothing of a request but its messages. *)
Theorem limits_are_fixed (x : External.t) :
  step_cap x = stepCountIs 7 /\
  (forall steps, step_cap x steps = true <-> length steps = 7) /\
  timeout x = 30%Z /\
  POST (External.request x) =
    POST (Request.mk (Request.messages (External.request x)) []).
Proof.
  split; [reflexivity |]. split; [intros steps; apply stepCountIs_met |].
  split; reflexivity.
Qed.

(** C8 (as stated) fails: neither quantity is externally tunable, and an
    environment and a request that name other limits leave them at 7 and 30. *)
Lemma limits_not_tunable :
  let x :=
    External.mk [("MAX_STEPS", "3"); ("MAX_DURATION", "60")]
      (Request.mk [] [("stepCap", "3"); ("timeout", "60")]) in
  (forall steps, step_cap x steps = stepCountIs 7 steps) /\
  timeout x = 30%Z /\
  ~ tunable step_cap /\ ~ tunable timeout.
Proof.
  split; [reflexivity |]. split; [reflexivity |].
  split; intros (x1 & x2 & Hne); apply Hne; reflexivity.
Qed.

(** ** The engine *)

Lemma after_app (parts : list Part) (evs1 evs2 : list Engine.Event) :
  Engine.after parts (evs1 ++ evs2)%list =
  (Engine.after parts evs1 ++
   Engine.after (fold_left Engine.apply_event evs1 parts) evs2)%list.
Proof.
  revert parts. induction evs1 as [|e evs1 IH]; intros parts; [reflexivity |].
  cbn [app Engine.after fold_left]. now rewrite IH.
Qed.

Lemma after_take (parts : list Part) (evs : list Engine.Event) (k : nat) :
  Engine.after parts (take k evs) = take k (Engine.after parts evs).
Proof.
  revert parts k. induction evs as [|e evs IH]; intros parts [|k]; try reflexivity.
  cbn [take Engine.after]. now rewrite IH.
Qed.

Lemma snapshots_from (parts : list Part) (evs : list Engine.Event) :
  map (fun k => fold_left Engine.apply_event (take k evs) parts) (seq 0 (S (length evs))) =
  parts :: Engine.after parts evs.
Proof.
  revert parts. induction evs as [|e evs IH]; intros parts; [reflexivity |].
  cbn [length]. rewrite <- cons_seq, <- seq_shift.
  cbn [map]. rewrite List.map_map.
  cbn [take fold_left Engine.after]. f_equal. apply IH.
Qed.

Lemma snapshots_after (evs : list Engine.Event) :
  Engine.snapshots evs = [] :: Engine.after [] evs.
Proof. apply snapshots_from. Qed.

Lemma chain_after_app (i : nat) (parts : list Part) (evs1 evs2 : list Engine.Event) :
  Engine.chain (Engine.state_at i parts)
    (map (Engine.state_at i) (Engine.after parts evs1)) ->
  Engine.chain (Engine.state_at i (fold_left Engine.apply_event evs1 parts))
    (map (Engine.state_at i)
       (Engine.after (fold_left Engine.apply_event evs1 parts) evs2)) ->
  Engine.chain (Engine.state_at i parts)
    (map (Engine.state_at i) (Engine.after parts (evs1 ++ evs2)%list)).
Proof.
  revert parts. induction evs1 as [|e evs1 IH]; intros parts H1 H2; [exact H2 |].
  cbn [app Engine.after map Engine.chain fold_left] in *.
  destruct H1 as [Hstep H1]. split; [exact Hstep |]. now apply IH.
Qed.

Lemma chain_take (cur : option ToolState) (states : list (option ToolState)) (k : nat) :
  Engine.chain cur states -> Engine.chain cur (take k states).
Proof.
  revert cur k. induction states as [|s states IH]; intros cur [|k] H; try exact I.
  cbn [take Engine.chain] in *. destruct H as [Hstep H]. split; [exact Hstep |].
  now apply IH.
Qed.

Lemma path_legal (cur : option ToolState) :
  Engine.path cur `prefix_of` Engine.succeeded \/ Engine.path cur `prefix_of` Engine.failed.
Proof.
  destruct cur as [[| | |]|]; cbn [Engine.path].
  - left. now exists [input_available; output_available].
  - left. now exists [output_available].
  - left. now exists [].
  - right. now exists [].
  - left. apply prefix_nil.
Qed.

Lemma squash_path (cur : option ToolState) (states : list (option ToolState)) :
  Engine.chain cur states ->
  exists final,
    (Engine.front cur ++ Engine.squash (omap id (cur :: states)))%list = Engine.path final.
Proof.
  revert cur. induction states as [|s states IH]; intros cur H.
  - exists cur. now destruct cur as [[| | |]|].
  - cbn [Engine.chain] in H. destruct H as [Hstep H].
    destruct (IH s H) as [final Hfinal]. exists final. rewrite <- Hfinal.
    destruct Hstep as [-> | Hnext].
    + destruct cur as [st|]; [| reflexivity].
      change (omap id (Some st :: Some st :: states))
        with (st :: st :: omap id states).
      change (omap id (Some st :: states)) with (st :: omap id states).
      cbn [Engine.squash]. now rewrite decide_True.
    + destruct cur as [[| | |]|], s as [[| | |]|]; try discriminate Hnext; reflexivity.
Qed.

Lemma state_at_snoc (i : nat) (parts : list Part) (p : Part) :
  Engine.state_at i (parts ++ [p])%list =
  if decide (i = length parts) then part_state p else Engine.state_at i parts.
Proof.
  unfold Engine.state_at. destruct (decide (i = length parts)) as [-> | Hne].
  - now rewrite list_lookup_middle.
  - destruct (Nat.lt_ge_cases i (length parts)) as [Hlt | Hge].
    + now rewrite lookup_app_l.
    + rewrite !lookup_ge_None_2; [reflexivity | lia |].
      rewrite length_app. simpl. lia.
Qed.

Lemma state_at_beyond (i : nat) (parts : list Part) :
  length parts <= i -> Engine.state_at i parts = None.
Proof. intros H. unfold Engine.state_at. now rewrite lookup_ge_None_2. Qed.

Lemma snoc_replace (parts : list Part) (p q : Part) :
  <[length parts := q]> (parts ++ [p])%list = (parts ++ [q])%list.
Proof.
  rewrite insert_app_r_alt by lia. now rewrite Nat.sub_diag.
Qed.

Lemma tool_events_after (parts : list Part) (call : ToolCall)
    (result : Engine.ToolError + ToolOutput) :
  Engine.after parts (Engine.tool_events (length parts) call result) =
  [ (parts ++ [ToolPartOf (Engine.streaming_part call)])%list;
    (parts ++ [ToolPartOf (Engine.available_part call)])%list;
    (parts ++ [ToolPartOf (Engine.settled_part call result)])%list ].
Proof.
  unfold Engine.tool_events. cbn [Engine.after Engine.apply_event].
  rewrite list_lookup_middle by reflexivity. rewrite snoc_replace.
  destruct result as [e | out]; cbn [Engine.apply_event];
    rewrite list_lookup_middle by reflexivity; rewrite snoc_replace; reflexivity.
Qed.

Lemma tool_events_result (parts : list Part) (call : ToolCall)
    (result : Engine.ToolError + ToolOutput) :
  fold_left Engine.apply_event (Engine.tool_events (length parts) call result) parts =
  (parts ++ [ToolPartOf (Engine.settled_part call result)])%list.
Proof.
  unfold Engine.tool_events. cbn [fold_left Engine.apply_event].
  rewrite list_lookup_middle by reflexivity. rewrite snoc_replace.
  destruct result as [e | out]; cbn [Engine.apply_event];
    rewrite list_lookup_middle by reflexivity; rewrite snoc_replace; reflexivity.
Qed.

Lemma tool_events_chain (i : nat) (parts : list Part) (call : ToolCall)
    (result : Engine.ToolError + ToolOutput) :
  Engine.chain (Engine.state_at i parts)
    (map (Engine.state_at i)
       (Engine.after parts (Engine.tool_events (length parts) call result))).
Proof.
  rewrite tool_events_after. cbn [map Engine.chain]. rewrite !state_at_snoc.
  destruct (decide (i = length parts)) as [-> | Hne].
  - rewrite state_at_beyond by lia. cbn [part_state].
    destruct result; cbn; auto.
  - auto.
Qed.

Lemma text_event_chain (i : nat) (parts : list Part) (text : string) :
  Engine.chain (Engine.state_at i parts)
    (map (Engine.state_at i) (Engine.after parts [Engine.append (TextPart text)])).
Proof.
  cbn [Engine.after Engine.apply_event map Engine.chain]. rewrite state_at_snoc.
  destruct (decide (i = length parts)) as [-> | Hne]; [| auto].
  rewrite state_at_beyond by lia. auto.
Qed.

Lemma bind_inv {A B} (m : Rand A) (f : A -> Rand B) draws pos r :
  (m ≫= f) draws pos = Some r ->
  exists a pos1, m draws pos = Some (a, pos1) /\ f a draws pos1 = Some r.
Proof.
  unfold mbind, Rand_bind. destruct (m draws pos) as [[a pos1]|]; [| discriminate].
  intros H. now exists a, pos1.
Qed.

Lemma perform_emits (run : Engine.Run.t) (s : Step) draws pos run' pos' :
  Engine.perform run s draws pos = Some (run', pos') ->
  exists evs,
    run' = Engine.emit run evs /\
    (forall i,
        Engine.chain (Engine.state_at i (Engine.Run.message run))
          (map (Engine.state_at i) (Engine.after (Engine.Run.message run) evs))) /\
    Engine.Run.message run `prefix_of` Engine.Run.message run'.
Proof.
  destruct s as [text | call |]; cbn [Engine.perform].
  - intros [= <- <-]. exists [Engine.append (TextPart text)].
    split; [reflexivity |]. split; [intros i; apply text_event_chain |].
    now exists [TextPart text].
  - intros H. apply bind_inv in H as (result & pos1 & _ & [= <- <-]).
    exists (Engine.tool_events (length (Engine.Run.message run)) call result).
    split; [reflexivity |]. split; [intros i; apply tool_events_chain |].
    cbn [Engine.emit Engine.Run.message]. rewrite tool_events_result.
    now eexists.
  - intros [= <- <-]. exists []. split.
    + destruct run. unfold Engine.emit. cbn. now rewrite app_nil_r.
    + split; [intros i; exact I | reflexivity].
Qed.

Lemma reasoning_preserves (Inv : Engine.Run.t -> Prop)
    (nextStep : Planner) (stopWhen : list Step -> bool)
    (transcript : list Message.t) (draws : nat -> Q) :
  (forall run s pos run' pos',
      Inv run -> Engine.perform run s draws pos = Some (run', pos') -> Inv run') ->
  (forall run s, Inv run -> Inv (Engine.noted run s)) ->
  (forall run, Inv run -> Inv (Engine.finish run)) ->
  forall fuel run pos run' pos',
    Inv run ->
    Engine.reasoning nextStep stopWhen transcript fuel run draws pos = Some (run', pos') ->
    Inv run'.
Proof.
  intros Hperform Hnoted Hfinish.
  induction fuel as [|fuel IH]; intros run pos run' pos' Hinv Hrun; [discriminate |].
  cbn [Engine.reasoning] in Hrun.
  apply bind_inv in Hrun as (run1 & pos1 & Hp & Hrest).
  pose proof (Hnoted _ (nextStep (Engine.current transcript run))
                (Hperform _ _ _ _ _ Hinv Hp)) as Hinv1.
  destruct (nextStep (Engine.current transcript run)) as [text | call |].
  - destruct (stopWhen _); [injection Hrest as <- <-; now apply Hfinish |].
    eapply IH; eassumption.
  - destruct (stopWhen _); [injection Hrest as <- <-; now apply Hfinish |].
    eapply IH; eassumption.
  - injection Hrest as <- <-. now apply Hfinish.
Qed.

Lemma omap_map {A B} (f : A -> option B) (l : list A) : omap f l = omap id (map f l).
Proof.
  induction l as [|x l IH]; [reflexivity |].
  cbn [map]. change (omap f (x :: l)) with (match f x with Some y => y :: omap f l | None => omap f l end).
  change (omap id (f x :: map f l))
    with (match f x with Some y => y :: omap id (map f l) | None => omap id (map f l) end).
  now rewrite IH.
Qed.

Lemma map_take {A B} (f : A -> B) (l : list A) (k : nat) :
  map f (take k l) = take k (map f l).
Proof.
  revert k. induction l as [|x l IH]; intros [|k]; try reflexivity.
  cbn [take map]. now rewrite IH.
Qed.

Lemma observed_legal (i : nat) (evs : list Engine.Event) :
  Engine.chain None (map (Engine.state_at i) (Engine.after [] evs)) ->
  exists final, Engine.observed i evs = Engine.path final.
Proof.
  intros H. destruct (squash_path None _ H) as [final Hfinal]. exists final.
  rewrite <- Hfinal. unfold Engine.observed.
  now rewrite snapshots_after, omap_map.
Qed.

(** The log of a run rebuilds its message, and along it every part moves
    forward one state at a time. *)
Lemma reasoning_log (nextStep : Planner) (stopWhen : list Step -> bool)
    (transcript : list Message.t) (draws : nat -> Q) fuel run pos run' pos' :
  Engine.Run.message run = Engine.replay (Engine.Run.log run) ->
  (forall i, Engine.chain None
               (map (Engine.state_at i) (Engine.after [] (Engine.Run.log run)))) ->
  Engine.reasoning nextStep stopWhen transcript fuel run draws pos = Some (run', pos') ->
  Engine.Run.message run' = Engine.replay (Engine.Run.log run') /\
  (forall i, Engine.chain None
               (map (Engine.state_at i) (Engine.after [] (Engine.Run.log run')))).
Proof.
  intros Hmsg Hchain Hrun.
  apply (reasoning_preserves
           (fun r =>
              Engine.Run.message r = Engine.replay (Engine.Run.log r) /\
              (forall i, Engine.chain None
                 (map (Engine.state_at i) (Engine.after [] (Engine.Run.log r)))))
           nextStep stopWhen transcript draws) with (fuel := fuel) (run := run)
           (pos := pos) (pos' := pos');
    [| | | split; assumption | assumption].
  - intros r s p r' p' [Hm Hc] Hp.
    apply perform_emits in Hp as (evs & -> & Hevs & _).
    cbn [Engine.emit Engine.Run.message Engine.Run.log]. split.
    + unfold Engine.replay. now rewrite fold_left_app, Hm.
    + intros i. apply (chain_after_app i []); [apply Hc |].
      fold (Engine.replay (Engine.Run.log r)). rewrite <- Hm. apply Hevs.
  - intros r s H. exact H.
  - intros r H. exact H.
Qed.

(** C2: in every response, cancelled after any number of events or run to
    its end, the states observed of each part are a prefix of
    [input-streaming, input-available, output-available] or of
    [input-streaming, input-available, output-error]: none is skipped, none
    comes back, and the two final states are never both seen of one part. *)
Theorem tool_part_progression (options : StreamText.t) (nextStep : Planner)
    (fuel : nat) (draws : nat -> Q) (pos : nat) (run : Engine.Run.t) (pos' : nat)
    (cancelled_after partIndex : nat) :
  Engine.streamText options nextStep fuel draws pos = Some (run, pos') ->
  let seen := Engine.observed partIndex (take cancelled_after (Engine.Run.log run)) in
  (seen `prefix_of` Engine.succeeded \/ seen `prefix_of` Engine.failed) /\
  ~ (output_available ∈ seen /\ output_error ∈ seen).
Proof.
  intros Hrun seen.
  apply reasoning_log in Hrun as [_ Hchain]; [| reflexivity | intros i; exact I].
  destruct (observed_legal partIndex (take cancelled_after (Engine.Run.log run)))
    as [final Hfinal].
  { rewrite after_take, map_take. apply chain_take, Hchain. }
  fold seen in Hfinal. rewrite Hfinal. split; [apply path_legal |].
  intros [Hok Herr].
  apply list_elem_of_In in Hok, Herr.
  destruct final as [[| | |]|]; cbn in Hok, Herr; intuition discriminate.
Qed.

Lemma invoke_total (call : ToolCall) (draws : nat -> Q) (pos : nat) :
  unit_draws draws ->
  exists result pos', Engine.invoke call draws pos = Some (result, pos').
Proof.
  intros Hd. unfold Engine.invoke.
  destruct call as [input | input | input | input | input]; cbn [Engine.validateInput].
  - destruct (weather_execute_run draws Hd input pos) as (c & w & r & a & _ & _ & _ & _ & H).
    eexists _, _. cbn [Engine.execute].
    rewrite (bind_run _ _ _ _ _ _ (bind_run _ _ _ _ _ _ H)). reflexivity.
  - destruct (hazardScan_execute_spec draws Hd input pos) as (r & H & _).
    eexists _, _. cbn [Engine.execute].
    rewrite (bind_run _ _ _ _ _ _ (bind_run _ _ _ _ _ _ H)). reflexivity.
  - destruct (navigationWindows_execute_spec draws Hd input pos) as (r & H & _).
    eexists _, _. cbn [Engine.execute].
    rewrite (bind_run _ _ _ _ _ _ (bind_run _ _ _ _ _ _ H)). reflexivity.
  - destruct (celestialEvents_execute_spec draws Hd input pos) as (r & H & _).
    eexists _, _. cbn [Engine.execute].
    rewrite (bind_run _ _ _ _ _ _ (bind_run _ _ _ _ _ _ H)). reflexivity.
  - destruct (whatToWear.inputSchema input); eexists _, _; reflexivity.
Qed.

Lemma perform_total (run : Engine.Run.t) (s : Step) (draws : nat -> Q) (pos : nat) :
  unit_draws draws ->
  exists run' pos',
    Engine.perform run s draws pos = Some (run', pos') /\
    Engine.Run.steps run' = Engine.Run.steps run.
Proof.
  intros Hd. destruct s as [text | call |]; cbn [Engine.perform].
  - eexists _, _. split; reflexivity.
  - destruct (invoke_total call draws pos Hd) as (result & pos' & H).
    eexists _, _. rewrite (bind_run _ _ _ _ _ _ H). split; reflexivity.
  - eexists _, _. split; reflexivity.
Qed.

(** With the stop condition [stepCountIs 7] the loop ends, within the cap. *)
Lemma reasoning_capped (nextStep : Planner) (transcript : list Message.t)
    (draws : nat -> Q) :
  unit_draws draws ->
  forall fuel run pos,
    length (Engine.Run.steps run) < 7 ->
    7 <= fuel + length (Engine.Run.steps run) ->
    exists run' pos',
      Engine.reasoning nextStep (stepCountIs 7) transcript fuel run draws pos =
        Some (run', pos') /\
      Engine.Run.phase run' = Engine.Done /\
      length (Engine.Run.steps run') <= 7.
Proof.
  intros Hd. induction fuel as [|fuel IH]; intros run pos Hlt Hfuel; [lia |].
  cbn [Engine.reasoning].
  destruct (perform_total run (nextStep (Engine.current transcript run)) draws pos Hd)
    as (run1 & pos1 & Hp & Hsteps).
  rewrite (bind_run _ _ _ _ _ _ Hp).
  assert (Hlen : length (Engine.Run.steps
                   (Engine.noted run1 (nextStep (Engine.current transcript run)))) =
                 S (length (Engine.Run.steps run))).
  { cbn [Engine.noted Engine.Run.steps]. rewrite length_app, Hsteps. simpl. lia. }
  assert (Hdone : forall r p,
             length (Engine.Run.steps r) <= 7 ->
             exists run' pos',
               @mret Rand _ _ (Engine.finish r) draws p = Some (run', pos') /\
               Engine.Run.phase run' = Engine.Done /\ length (Engine.Run.steps run') <= 7).
  { intros r p Hr. exists (Engine.finish r), p. repeat split. exact Hr. }
  destruct (nextStep (Engine.current transcript run)) as [text | call |];
    try (apply Hdone; lia);
    (destruct (stepCountIs 7 _) eqn:Hstop; [apply Hdone; lia |];
     apply IH; [| lia];
     unfold stepCountIs in Hstop; apply Nat.eqb_neq in Hstop; lia).
Qed.

(** C1: every response to a request ends, in [Done], after at most 7
    reasoning steps: with the options of [POST], whatever the planner decides
    and whatever the tools draw, the loop returns and has iterated at most 7
    times. *)
Theorem reasoning_steps_capped (req : Request.t) (nextStep : Planner) (fuel : nat)
    (draws : nat -> Q) (pos : nat) :
  unit_draws draws -> 7 <= fuel ->
  exists run pos',
    Engine.streamText (POST req) nextStep fuel draws pos = Some (run, pos') /\
    Engine.Run.phase run = Engine.Done /\
    length (Engine.Run.steps run) <= 7.
Proof.
  intros Hd Hfuel. unfold Engine.streamText.
  apply reasoning_capped; cbn; [assumption | lia | lia].
Qed.

(** No step removes, reorders or changes a part that an earlier step left. *)
Lemma reasoning_extends (nextStep : Planner) (stopWhen : list Step -> bool)
    (transcript : list Message.t) (draws : nat -> Q) fuel run pos run' pos' :
  Engine.reasoning nextStep stopWhen transcript fuel run draws pos = Some (run', pos') ->
  Engine.Run.message run `prefix_of` Engine.Run.message run'.
Proof.
  apply (reasoning_preserves
           (fun r => Engine.Run.message run `prefix_of` Engine.Run.message r)).
  - intros r s p r' p' Hr Hp. apply perform_emits in Hp as (_ & _ & _ & Hext).
    now transitivity (Engine.Run.message r).
  - intros r s H. exact H.
  - intros r H. exact H.
  - reflexivity.
Qed.

Lemma invoke_rejects_four (input : WeatherWear.t) (draws : nat -> Q) (pos : nat) :
  length (WeatherWear.suggestions input) = 4 ->
  whatToWear.inputSchema input = [whatToWear.too_big 3] /\
  Engine.invoke (call_whatToWear input) draws pos =
    Some (inl (Engine.InvalidArgumentsError [whatToWear.too_big 3]), pos).
Proof.
  intros Hlen.
  assert (H : whatToWear.inputSchema input = [whatToWear.too_big 3])
    by (unfold whatToWear.inputSchema; now rewrite Hlen).
  split; [exact H |].
  unfold Engine.invoke. cbn [Engine.validateInput]. now rewrite H.
Qed.

(** C5: when a reasoning step of a response calls [whatToWear] with 4
    suggestions, validation rejects the arguments with an
    [InvalidArgumentsError]; the part of that call ends in [output-error]
    with a non-empty [errorText] and no output, and the response still
    reaches [Done]. *)
Theorem invalid_gear_is_reported (req : Request.t) (nextStep : Planner)
    (input : WeatherWear.t) (fuel : nat) (run0 : Engine.Run.t)
    (draws : nat -> Q) (pos : nat) :
  unit_draws draws ->
  length (WeatherWear.suggestions input) = 4 ->
  length (Engine.Run.steps run0) < 7 ->
  7 <= fuel + length (Engine.Run.steps run0) ->
  nextStep (Engine.current (Request.messages req) run0) =
    call_tool (call_whatToWear input) ->
  (exists violated,
      violated <> [] /\
      Engine.invoke (call_whatToWear input) draws pos =
        Some (inl (Engine.InvalidArgumentsError violated), pos)) /\
  exists run pos' tp errorText,
    Engine.reasoning nextStep (StreamText.stopWhen (POST req))
      (StreamText.messages (POST req)) fuel run0 draws pos = Some (run, pos') /\
    Engine.Run.phase run = Engine.Done /\
    Engine.Run.message run !! length (Engine.Run.message run0) = Some (ToolPartOf tp) /\
    ToolPart.toolName tp = tool_whatToWear /\
    ToolPart.state tp = output_error /\
    ToolPart.output tp = None /\
    ToolPart.errorText tp = Some errorText /\
    errorText <> "".
Proof.
  intros Hd Hlen Hsteps Hfuel Hnext.
  destruct (invoke_rejects_four input draws pos Hlen) as [_ Hinvoke].
  split; [exists [whatToWear.too_big 3]; split; [discriminate | exact Hinvoke] |].
  destruct fuel as [|fuel]; [lia |].
  cbn [POST StreamText.stopWhen StreamText.messages Engine.reasoning].
  rewrite Hnext. cbn [Engine.perform].
  rewrite (bind_run _ _ _ _ _ _ (bind_run _ _ _ _ _ _ Hinvoke)).
  unfold mret at 1, Rand_ret at 1.
  set (result := inl (Engine.InvalidArgumentsError [whatToWear.too_big 3]) :
                   Engine.ToolError + ToolOutput).
  set (run1 := Engine.noted
                 (Engine.emit run0
                    (Engine.tool_events (length (Engine.Run.message run0))
                       (call_whatToWear input) result))
                 (call_tool (call_whatToWear input))).
  assert (Hmsg : Engine.Run.message run1 =
                 (Engine.Run.message run0 ++
                  [ToolPartOf (Engine.settled_part (call_whatToWear input) result)])%list)
    by apply tool_events_result.
  assert (Hlen1 : length (Engine.Run.steps run1) = S (length (Engine.Run.steps run0))).
  { subst run1. cbn [Engine.noted Engine.emit Engine.Run.steps].
    rewrite length_app. simpl. lia. }
  assert (Hpart : Engine.Run.message run1 !! length (Engine.Run.message run0) =
                  Some (ToolPartOf (Engine.settled_part (call_whatToWear input) result)))
    by (rewrite Hmsg; now apply list_lookup_middle).
  assert (Hfinal : exists run pos',
             (if stepCountIs 7 (Engine.Run.steps run1)
              then mret (Engine.finish run1)
              else Engine.reasoning nextStep (stepCountIs 7) (Request.messages req)
                     fuel run1) draws pos = Some (run, pos') /\
             Engine.Run.phase run = Engine.Done /\
             Engine.Run.message run1 `prefix_of` Engine.Run.message run).
  { destruct (stepCountIs 7 (Engine.Run.steps run1)) eqn:Hstop.
    - exists (Engine.finish run1), pos. repeat split. reflexivity.
    - unfold stepCountIs in Hstop. apply Nat.eqb_neq in Hstop.
      destruct (reasoning_capped nextStep (Request.messages req) draws Hd fuel run1 pos)
        as (run & pos' & Hrun & Hdone & _); [lia | lia |].
      exists run, pos'. split; [exact Hrun |]. split; [exact Hdone |].
      eapply reasoning_extends; exact Hrun. }
  destruct Hfinal as (run & pos' & Hrun & Hdone & Hext).
  exists run, pos', (Engine.settled_part (call_whatToWear input) result),
    (Engine.message_of (Engine.InvalidArgumentsError [whatToWear.too_big 3])).
  split; [exact Hrun |]. split; [exact Hdone |].
  split; [eapply prefix_lookup_Some; eassumption |].
  repeat split. discriminate.
Qed.

Lemma reasoning_steps_capped_witness :
  exists run pos',
    Engine.streamText (POST sample_request) sample_planner 7 sample_draws 0 =
      Some (run, pos') /\
    Engine.Run.phase run = Engine.Done /\
    length (Engine.Run.steps run) <= 7.
Proof.
  apply (reasoning_steps_capped sample_request sample_planner 7 sample_draws 0
           sample_draws_unit).
  lia.
Defined.

Lemma tool_part_progression_witness :
  (Engine.observed 1 (take 5 (Engine.Run.log sample_run)) `prefix_of` Engine.succeeded \/
   Engine.observed 1 (take 5 (Engine.Run.log sample_run)) `prefix_of` Engine.failed) /\
  ~ (output_available ∈ Engine.observed 1 (take 5 (Engine.Run.log sample_run)) /\
     output_error ∈ Engine.observed 1 (take 5 (Engine.Run.log sample_run))).
Proof.
  apply (tool_part_progression (POST sample_request) sample_planner 7 sample_draws 0
           sample_run 5 5 1).
  vm_compute. reflexivity.
Defined.

Lemma invalid_gear_is_reported_witness :
  (exists violated,
      violated <> [] /\
      Engine.invoke (call_whatToWear four_suggestions) sample_draws 0 =
        Some (inl (Engine.InvalidArgumentsError violated), 0)) /\
  exists run pos' tp errorText,
    Engine.reasoning sample_planner (StreamText.stopWhen (POST sample_request))
      (StreamText.messages (POST sample_request)) 7
      (Engine.Run.mk Engine.Reasoning [] [] []) sample_draws 0 = Some (run, pos') /\
    Engine.Run.phase run = Engine.Done /\
    Engine.Run.message run !! 0 = Some (ToolPartOf tp) /\
    ToolPart.toolName tp = tool_whatToWear /\
    ToolPart.state tp = output_error /\
    ToolPart.output tp = None /\
    ToolPart.errorText tp = Some errorText /\
    errorText <> "".
Proof.
  apply (invalid_gear_is_reported sample_request sample_planner four_suggestions 7
           (Engine.Run.mk Engine.Reasoning [] [] []) sample_draws 0 sample_draws_unit).
  - reflexivity.
  - simpl. lia.
  - simpl. lia.
  - reflexivity.
Defined.

(** On the transcript of the sample response, whose parts are an errored
    call, a successful call and a text, the page counts one tool run. *)
Example sample_tool_runs :
  Home.toolActivations
    (Home.mk
       (Request.messages sample_request ++
        [Message.mk "a1" assistant (Some (Engine.Run.message sample_run))])
       "ready" "") = 1.
Proof. vm_compute. reflexivity. Qed.

(** A planner that never stops is cut at the cap: 7 steps, 7 settled parts,
    however much fuel the model is given. *)
Example relentless_planner_is_capped :
  match Engine.streamText (POST sample_request) relentless_planner 100 sample_draws 0 with
  | Some (run, _) =>
      Engine.Run.phase run = Engine.Done /\
      length (Engine.Run.steps run) = 7 /\
      map part_state (Engine.Run.message run) = repeat (Some output_available) 7
  | None => False
  end.
Proof. vm_compute. repeat split. Qed.

(** The sample response: the rejected call, the weather call and the closing
    text, in that order, in three steps and a stop. *)
Example sample_run_parts :
  Engine.streamText (POST sample_request) sample_planner 7 sample_draws 0 =
    Some (sample_run, 5) /\
  map part_state (Engine.Run.message sample_run) =
    [Some output_error; Some output_available; None] /\
  length (Engine.Run.steps sample_run) = 4 /\
  Engine.observed 0 (Engine.Run.log sample_run) = Engine.failed /\
  Engine.observed 1 (Engine.Run.log sample_run) = Engine.succeeded /\
  Engine.observed 1 (take 5 (Engine.Run.log sample_run)) =
    [input_streaming; input_available] /\
  Engine.observed 2 (Engine.Run.log sample_run) = [].
Proof. vm_compute. repeat split. Qed.

(** ** More on the tools *)

Lemma map_fmap {A B} (f : A -> B) (l : list A) : map f l = f <$> l.
Proof. reflexivity. Qed.

Lemma submseteq_NoDup {A} (l k : list A) : l ⊆+ k -> NoDup k -> NoDup l.
Proof.
  intros Hsub Hk. apply submseteq_Permutation in Hsub as [rest Hperm].
  rewrite Hperm in Hk. now apply NoDup_app in Hk as [Hl _].
Qed.

Lemma pools_distinct :
  NoDup hazardPool /\
  NoDup (map NavigationWindow.label windowPool) /\
  NoDup (map EventEntry.title eventPool).
Proof.
  split; [apply (NoDup_fmap_1 HazardScanItem.name) |]; [| split];
    rewrite <- ?map_fmap; apply (bool_decide_unpack _); vm_compute; exact I.
Qed.

Lemma hazard_rebuilt (taken : list HazardScanItem.t) :
  map (fun hazard =>
         HazardScanItem.mk (HazardScanItem.name hazard)
           (HazardScanItem.severity hazard)
           (HazardScanItem.guidance hazard)) taken = taken.
Proof.
  induction taken as [|[n s g] taken IH]; [reflexivity |].
  cbn [map HazardScanItem.name HazardScanItem.severity HazardScanItem.guidance].
  now rewrite IH.
Qed.

Lemma times_zero (r : Q) : times r 0 = 0%Q.
Proof.
  unfold times, binary64, Qcompare, Qmult. cbn [Qnum Qden].
  now rewrite Z.mul_0_r.
Qed.

(** X1: [takeRandom(items, count)] returns [min(count, items.length)]
    entries that form a sub-multiset of [items], so no entry comes more often
    than [items] holds it and distinct items give distinct results; it draws
    [items.length - 1] times, whatever [count] is. *)
Theorem takeRandom_sample {T} (items : list T) (count : nat) (draws : nat -> Q)
    (pos : nat) :
  unit_draws draws ->
  exists out,
    takeRandom items count draws pos = Some (out, pos + (length items - 1)) /\
    length out = Nat.min count (length items) /\
    out ⊆+ items /\
    (NoDup items -> NoDup out).
Proof.
  intros Hd.
  destruct (takeRandom_spec draws Hd items count pos) as (out & Hrun & Hlen & Hsub).
  exists out. repeat split; try assumption.
  intros Hnd. eapply submseteq_NoDup; eassumption.
Qed.

Lemma takeRandom_sample_witness :
  exists out,
    takeRandom [1; 2; 3; 4; 5] 3 sample_draws 0 = Some (out, 0 + (5 - 1)) /\
    length out = Nat.min 3 5 /\
    out ⊆+ [1; 2; 3; 4; 5] /\
    (NoDup [1; 2; 3; 4; 5] -> NoDup out).
Proof. exact (takeRandom_sample [1; 2; 3; 4; 5] 3 sample_draws 0 sample_draws_unit). Defined.

(** X2: when [count] is at least [items.length], [takeRandom] returns a
    permutation of [items]: the shuffle loses and repeats nothing. *)
Theorem takeRandom_all_is_permutation {T} (items : list T) (count : nat)
    (draws : nat -> Q) (pos : nat) :
  unit_draws draws -> length items <= count ->
  exists out,
    takeRandom items count draws pos = Some (out, pos + (length items - 1)) /\
    out ≡ₚ items.
Proof.
  intros Hd Hcount.
  destruct (takeRandom_spec draws Hd items count pos) as (out & Hrun & Hlen & Hsub).
  exists out. split; [assumption |].
  apply submseteq_length_Permutation; [assumption | lia].
Qed.

Lemma takeRandom_all_is_permutation_witness :
  exists out,
    takeRandom ["a"; "b"; "c"] 3 sample_draws 2 = Some (out, 2 + (3 - 1)) /\
    out ≡ₚ ["a"; "b"; "c"].
Proof.
  apply (takeRandom_all_is_permutation ["a"; "b"; "c"] 3 sample_draws 2 sample_draws_unit).
  simpl. lia.
Defined.

(** X3: [randomOf(items)] draws once; on a non-empty array it returns one of
    its entries, and on the empty array it reads index 0, which is
    [undefined]. *)
Theorem randomOf_member {T} (items : list T) (draws : nat -> Q) (pos : nat) :
  unit_draws draws ->
  match items with
  | [] => randomOf items draws pos = None
  | _ :: _ => exists x, randomOf items draws pos = Some (x, S pos) /\ x ∈ items
  end.
Proof.
  intros Hd. destruct items as [|x items].
  - unfold randomOf, mbind, Rand_bind, Math_random, defined.
    change (inject_Z (Z.of_nat (@length T []))) with 0%Q.
    now rewrite times_zero.
  - apply (randomOf_spec draws Hd). discriminate.
Qed.

Lemma randomOf_member_witness :
  exists x, randomOf windPool sample_draws 3 = Some (x, 4) /\ x ∈ windPool.
Proof. exact (randomOf_member windPool sample_draws 3 sample_draws_unit). Defined.

(** X4: [Math.floor(Math.random() * n)] is an index below [n] for every
    positive length [n], with the product rounded to binary64: rounding
    never lifts it to [n]. *)
Theorem random_index_within_bounds (r : Q) (n : nat) :
  is_binary64 r -> (0 <= r)%Q -> (r < 1)%Q -> 0 < n ->
  exists k, k < n /\ Math_floor (times r (inject_Z (Z.of_nat n))) = Z.of_nat k.
Proof.
  intros Hrep H0 H1 Hn.
  pose proof (floor_times_range r (Z.of_nat n) Hrep H0 H1 ltac:(lia)) as Hrange.
  exists (Z.to_nat (Math_floor (times r (inject_Z (Z.of_nat n))))).
  unfold Math_floor, times. split; lia.
Qed.

Lemma random_index_within_bounds_witness :
  exists k, k < 220 /\
    Math_floor (times (7451410292558457 # 9007199254740992)
                  (inject_Z (Z.of_nat 220))) = Z.of_nat k.
Proof.
  apply (random_index_within_bounds (7451410292558457 # 9007199254740992) 220).
  - vm_compute. reflexivity.
  - vm_compute. discriminate.
  - vm_compute. reflexivity.
  - lia.
Defined.

(** X5: [weather] draws five times; the temperature comes from the first
    draw alone, and [conditions], [wind], [radiation] and [advisory] are
    entries of their pools. *)
Theorem weather_fields_from_pools (input : LocationInput.t) (draws : nat -> Q)
    (pos : nat) :
  unit_draws draws ->
  exists result,
    weather.execute input draws pos = Some (result, pos + 5) /\
    WeatherResult.temperature result = (42 + Math_floor (times (draws pos) 220))%Z /\
    WeatherResult.conditions result ∈ conditionPool /\
    WeatherResult.wind result ∈ windPool /\
    WeatherResult.radiation result ∈ radiationPool /\
    WeatherResult.advisory result ∈ advisoryPool.
Proof.
  intros Hd.
  destruct (weather_execute_run draws Hd input pos)
    as (c & w & r & a & Hc & Hw & Hr & Ha & Hrun).
  eexists. split; [exact Hrun |]. now repeat split.
Qed.

Lemma weather_fields_from_pools_witness :
  exists result,
    weather.execute (LocationInput.mk "Europa") sample_draws 1 = Some (result, 1 + 5) /\
    WeatherResult.temperature result = (42 + Math_floor (times (sample_draws 1) 220))%Z /\
    WeatherResult.conditions result ∈ conditionPool /\
    WeatherResult.wind result ∈ windPool /\
    WeatherResult.radiation result ∈ radiationPool /\
    WeatherResult.advisory result ∈ advisoryPool.
Proof.
  exact (weather_fields_from_pools (LocationInput.mk "Europa") sample_draws 1
           sample_draws_unit).
Defined.

(** X6: [hazardScan] returns the input location and exactly three hazards,
    pairwise distinct, each an entry of [hazardPool] with its name, severity
    and guidance unchanged. *)
Theorem hazardScan_hazards_from_pool (input : LocationInput.t) (draws : nat -> Q)
    (pos : nat) :
  unit_draws draws ->
  exists report,
    hazardScan.execute input draws pos = Some (report, pos + 6) /\
    HazardScanReport.location report = LocationInput.location input /\
    length (HazardScanReport.hazards report) = 3 /\
    HazardScanReport.hazards report ⊆+ hazardPool /\
    NoDup (HazardScanReport.hazards report).
Proof.
  intros Hd.
  destruct (randomOf_spec draws Hd [Low; Elevated; Critical] pos) as [risk [Hrisk _]];
    [discriminate |].
  destruct (takeRandom_spec draws Hd hazardPool 3 (S pos)) as (taken & Htaken & Hlen & Hsub).
  exists (HazardScanReport.mk (LocationInput.location input) risk taken).
  split.
  - unfold hazardScan.execute. step Hrisk. step Htaken.
    unfold mret, Rand_ret. rewrite hazard_rebuilt. do 2 f_equal. simpl. lia.
  - cbn [HazardScanReport.location HazardScanReport.hazards].
    repeat split; try assumption.
    eapply submseteq_NoDup; [eassumption | apply pools_distinct].
Qed.

Lemma hazardScan_hazards_from_pool_witness :
  exists report,
    hazardScan.execute (LocationInput.mk "Titan") sample_draws 0 = Some (report, 0 + 6) /\
    HazardScanReport.location report = "Titan" /\
    length (HazardScanReport.hazards report) = 3 /\
    HazardScanReport.hazards report ⊆+ hazardPool /\
    NoDup (HazardScanReport.hazards report).
Proof.
  exact (hazardScan_hazards_from_pool (LocationInput.mk "Titan") sample_draws 0
           sample_draws_unit).
Defined.

(** X7: [navigationWindows] returns exactly three windows with pairwise
    distinct labels; each keeps the label and the time window of an entry of
    [windowPool] and carries that entry's note with the location appended. *)
Theorem navigationWindows_windows_from_pool (input : LocationInput.t)
    (draws : nat -> Q) (pos : nat) :
  unit_draws draws ->
  exists guide,
    navigationWindows.execute input draws pos = Some (guide, pos + 4) /\
    length (NavigationWindowGuide.windows guide) = 3 /\
    NoDup (map NavigationWindow.label (NavigationWindowGuide.windows guide)) /\
    forall w, w ∈ NavigationWindowGuide.windows guide ->
      exists entry, entry ∈ windowPool /\
        NavigationWindow.label w = NavigationWindow.label entry /\
        NavigationWindow.window w = NavigationWindow.window entry /\
        NavigationWindow.note w =
          NavigationWindow.note entry ++ " (" ++ LocationInput.location input ++ ").".
Proof.
  intros Hd.
  destruct (navigationWindows_execute_spec draws Hd input pos)
    as (taken & Hrun & Hlen & Hsub).
  eexists. split; [exact Hrun |].
  cbn [NavigationWindowGuide.windows]. split; [now rewrite length_map |]. split.
  - rewrite List.map_map. cbn [NavigationWindow.label].
    apply submseteq_NoDup with (map NavigationWindow.label windowPool);
      [| apply pools_distinct].
    rewrite !map_fmap. now apply fmap_submseteq.
  - intros w Hw. rewrite map_fmap in Hw.
    apply list_elem_of_fmap in Hw as (entry & -> & Hentry).
    exists entry. split; [eapply elem_of_submseteq; eassumption |].
    repeat split.
Qed.

Lemma navigationWindows_windows_from_pool_witness :
  exists guide,
    navigationWindows.execute (LocationInput.mk "Rings Bazaar") sample_draws 2 =
      Some (guide, 2 + 4) /\
    length (NavigationWindowGuide.windows guide) = 3 /\
    NoDup (map NavigationWindow.label (NavigationWindowGuide.windows guide)) /\
    forall w, w ∈ NavigationWindowGuide.windows guide ->
      exists entry, entry ∈ windowPool /\
        NavigationWindow.label w = NavigationWindow.label entry /\
        NavigationWindow.window w = NavigationWindow.window entry /\
        NavigationWindow.note w =
          NavigationWindow.note entry ++ " (" ++ "Rings Bazaar" ++ ").".
Proof.
  exact (navigationWindows_windows_from_pool (LocationInput.mk "Rings Bazaar")
           sample_draws 2 sample_draws_unit).
Defined.

(** X8: [celestialEvents] draws eight times and returns exactly three events
    with pairwise distinct titles; each has the title and the detail of one
    entry of [eventPool] and a time from [eventTimePool]. *)
Theorem celestialEvents_events_from_pools (input : LocationInput.t)
    (draws : nat -> Q) (pos : nat) :
  unit_draws draws ->
  exists feed,
    celestialEvents.execute input draws pos = Some (feed, pos + 8) /\
    length (CelestialEventFeed.events feed) = 3 /\
    NoDup (map CelestialEvent.title (CelestialEventFeed.events feed)) /\
    forall ev, ev ∈ CelestialEventFeed.events feed ->
      CelestialEvent.time ev ∈ eventTimePool /\
      EventEntry.mk (CelestialEvent.title ev) (CelestialEvent.detail ev) ∈ eventPool.
Proof.
  intros Hd.
  destruct (takeRandom_spec draws Hd eventPool 3 pos) as (taken & Htaken & Hlen & Hsub).
  change (length eventPool - 1) with 5 in Htaken.
  change (Nat.min 3 (length eventPool)) with 3 in Hlen.
  destruct (mapR_spec draws
              (fun event =>
                 time ← randomOf eventTimePool;
                 mret (CelestialEvent.mk (EventEntry.title event) time
                         (EventEntry.detail event)))
              (fun entry ev =>
                 CelestialEvent.title ev = EventEntry.title entry /\
                 CelestialEvent.detail ev = EventEntry.detail entry /\
                 CelestialEvent.time ev ∈ eventTimePool) 1) with (xs := taken)
              (pos := pos + 5)
    as (events & Hevents & Hall).
  { intros event p.
    destruct (randomOf_spec draws Hd eventTimePool p) as (time & Htime & Hin);
      [discriminate |].
    eexists. split.
    - step Htime. unfold mret, Rand_ret. replace (S p) with (p + 1) by lia.
      reflexivity.
    - cbn. repeat split. exact Hin. }
  exists (CelestialEventFeed.mk events). split.
  { unfold celestialEvents.execute. step Htaken. step Hevents.
    unfold mret, Rand_ret. do 2 f_equal. lia. }
  cbn [CelestialEventFeed.events].
  split; [apply Forall2_length in Hall; congruence |].
  assert (Htitles : map CelestialEvent.title events = map EventEntry.title taken).
  { clear -Hall. induction Hall as [|entry ev taken events (Ht & _ & _) _ IH];
      [reflexivity |]. cbn [map]. now rewrite Ht, IH. }
  split.
  - rewrite Htitles.
    apply submseteq_NoDup with (map EventEntry.title eventPool);
      [| apply pools_distinct].
    rewrite !map_fmap. now apply fmap_submseteq.
  - intros ev Hev.
    apply list_elem_of_lookup in Hev as [i Hi].
    destruct (Forall2_lookup_r _ _ _ _ _ Hall Hi) as (entry & Hentry & Ht & Hdt & Htime).
    split; [exact Htime |].
    rewrite Ht, Hdt. destruct entry as [title detail]. cbn.
    eapply elem_of_submseteq; [| exact Hsub].
    eapply list_elem_of_lookup_2; exact Hentry.
Qed.

Lemma celestialEvents_events_from_pools_witness :
  exists feed,
    celestialEvents.execute (LocationInput.mk "Neptune") sample_draws 0 =
      Some (feed, 0 + 8) /\
    length (CelestialEventFeed.events feed) = 3 /\
    NoDup (map CelestialEvent.title (CelestialEventFeed.events feed)) /\
    forall ev, ev ∈ CelestialEventFeed.events feed ->
      CelestialEvent.time ev ∈ eventTimePool /\
      EventEntry.mk (CelestialEvent.title ev) (CelestialEvent.detail ev) ∈ eventPool.
Proof.
  exact (celestialEvents_events_from_pools (LocationInput.mk "Neptune") sample_draws 0
           sample_draws_unit).
Defined.

(** X9: the schema of [whatToWear] accepts a list of suggestions exactly
    when it has 1 to 3 entries; it reports [too_small] for the empty list and
    [too_big] for more than 3, never both; [execute] returns its input
    unchanged and draws nothing. *)
Theorem whatToWear_schema_and_echo (input : WeatherWear.t) (draws : nat -> Q)
    (pos : nat) :
  let n := length (WeatherWear.suggestions input) in
  (whatToWear.inputSchema input = [] <-> 1 <= n <= 3) /\
  (whatToWear.inputSchema input = [whatToWear.too_small 1] <-> n = 0) /\
  (whatToWear.inputSchema input = [whatToWear.too_big 3] <-> 3 < n) /\
  whatToWear.execute input draws pos = Some (input, pos).
Proof.
  intros n. subst n. unfold whatToWear.inputSchema, whatToWear.execute.
  destruct input as [suggestions]. cbn [WeatherWear.suggestions].
  destruct (Nat.ltb_spec (length suggestions) 1);
    destruct (Nat.ltb_spec 3 (length suggestions));
    cbn [app]; repeat split; intros; try discriminate; try lia.
Qed.

(** What a computation reads of the tape: the shuffle of [takeRandom] reads
    the draws from its position on, one per iteration, and no other. *)
Lemma shuffle_local {T} (i : nat) :
  forall (pool : list T) (draws1 draws2 : nat -> Q) (pos : nat),
    (forall k, pos <= k < pos + i -> draws1 k = draws2 k) ->
    shuffle i pool draws1 pos = shuffle i pool draws2 pos.
Proof.
  induction i as [|i IH]; intros pool draws1 draws2 pos Hsame; [reflexivity |].
  cbn [shuffle]. unfold mbind, Rand_bind, Math_random, defined.
  rewrite (Hsame pos) by lia.
  destruct (swap pool (Z.of_nat (S i)) _); [| reflexivity].
  apply IH. intros k Hk. apply Hsame. lia.
Qed.

Lemma takeRandom_local {T} (items : list T) (count : nat)
    (draws1 draws2 : nat -> Q) (pos : nat) :
  (forall k, pos <= k < pos + (length items - 1) -> draws1 k = draws2 k) ->
  takeRandom items count draws1 pos = takeRandom items count draws2 pos.
Proof.
  intros Hsame. unfold takeRandom, mbind, Rand_bind.
  now rewrite (shuffle_local _ items draws1 draws2 pos Hsame).
Qed.

(** X10: the risk level of a hazard scan is drawn on its own and is not
    computed from the hazards it lists: whatever report a tape gives, a
    change of the one draw at the start gives the same hazards under any
    of the three risk levels. *)
Theorem hazardScan_riskLevel_is_independent (input : LocationInput.t)
    (draws : nat -> Q) (pos : nat) (level : HazardSeverity) :
  unit_draws draws ->
  exists draws' report report',
    unit_draws draws' /\
    (forall k, k <> pos -> draws' k = draws k) /\
    hazardScan.execute input draws pos = Some (report, pos + 6) /\
    hazardScan.execute input draws' pos = Some (report', pos + 6) /\
    HazardScanReport.hazards report' = HazardScanReport.hazards report /\
    HazardScanReport.riskLevel report' = level.
Proof.
  intros Hd.
  set (first := match level with
                | Low => 0%Q | Elevated => (1 # 2)%Q | Critical => (3 # 4)%Q
                end).
  set (draws' := fun k => if (k =? pos)%nat then first else draws k).
  assert (Hd' : unit_draws draws').
  { intros k. unfold draws'. destruct (k =? pos)%nat; [| apply Hd].
    unfold first. destruct level; vm_compute; intuition discriminate. }
  assert (Hkeep : forall k, k <> pos -> draws' k = draws k).
  { intros k Hk. unfold draws'. now rewrite (proj2 (Nat.eqb_neq k pos) Hk). }
  destruct (randomOf_spec draws Hd [Low; Elevated; Critical] pos) as [risk [Hrisk _]];
    [discriminate |].
  destruct (takeRandom_spec draws Hd hazardPool 3 (S pos))
    as (taken & Htaken & _ & _).
  assert (Hrisk' : randomOf [Low; Elevated; Critical] draws' pos = Some (level, S pos)).
  { unfold randomOf, mbind, Rand_bind, Math_random, defined, draws'.
    rewrite Nat.eqb_refl. unfold first. destruct level; vm_compute; reflexivity. }
  assert (Htaken' : takeRandom hazardPool 3 draws' (S pos) =
                    Some (taken, S pos + (length hazardPool - 1))).
  { rewrite <- Htaken. apply takeRandom_local. intros k Hk. apply Hkeep. lia. }
  exists draws', (HazardScanReport.mk (LocationInput.location input) risk taken),
    (HazardScanReport.mk (LocationInput.location input) level taken).
  split; [exact Hd' |]. split; [exact Hkeep |].
  split; [| split; [| split; reflexivity]].
  - unfold hazardScan.execute. step Hrisk. step Htaken.
    unfold mret, Rand_ret. rewrite hazard_rebuilt. do 2 f_equal. simpl. lia.
  - unfold hazardScan.execute. step Hrisk'. step Htaken'.
    unfold mret, Rand_ret. rewrite hazard_rebuilt. do 2 f_equal. simpl. lia.
Qed.

Lemma hazardScan_riskLevel_is_independent_witness :
  exists draws' report report',
    unit_draws draws' /\
    (forall k, k <> 0 -> draws' k = sample_draws k) /\
    hazardScan.execute (LocationInput.mk "Europa") sample_draws 0 =
      Some (report, 0 + 6) /\
    hazardScan.execute (LocationInput.mk "Europa") draws' 0 = Some (report', 0 + 6) /\
    HazardScanReport.hazards report' = HazardScanReport.hazards report /\
    HazardScanReport.riskLevel report' = Critical.
Proof.
  exact (hazardScan_riskLevel_is_independent (LocationInput.mk "Europa")
           sample_draws 0 Critical sample_draws_unit).
Defined.

(** [split_prompt needle]: split the system prompt around the first occurrence of
    [needle]. *)
Ltac split_prompt needle :=
  let found := eval vm_compute in (String.index 0 needle system_prompt) in
  match found with
  | Some ?n =>
      exists (String.substring 0 n system_prompt),
        (String.substring (n + String.length needle) (String.length system_prompt)
           system_prompt);
      vm_compute; reflexivity
  end.

(** X11: whatever the request, [POST] registers the five tools, each once,
    and the system prompt it sends names every one of them by its key in
    double quotes, so the model is told of no tool under another name. *)
Theorem system_prompt_names_every_tool (req : Request.t) (tool : ToolName) :
  NoDup (StreamText.tools (POST req)) /\
  tool ∈ StreamText.tools (POST req) /\
  exists before after,
    StreamText.system (POST req) = before ++ quoted (tool_key tool) ++ after.
Proof.
  cbn [POST StreamText.tools StreamText.system]. split; [| split].
  - repeat (apply NoDup_cons; split;
            [rewrite !list_elem_of_In; simpl; intuition discriminate |]).
    apply NoDup_nil_2.
  - rewrite list_elem_of_In. destruct tool; simpl; intuition.
  - destruct tool; cbn [tool_key].
    + split_prompt (quoted "weather").
    + split_prompt (quoted "hazardScan").
    + split_prompt (quoted "navigationWindows").
    + split_prompt (quoted "celestialEvents").
    + split_prompt (quoted "whatToWear").
Qed.

(** ** More on the console page *)

Lemma eqb_empty (s : string) : String.eqb s "" = true <-> s = "".
Proof. apply String.eqb_eq. Qed.

(** X12: the Send button is disabled exactly when [handleSubmit] would
    return without a call; when it is enabled, [handleSubmit] sends the
    trimmed draft, which is not empty, and then clears the draft. *)
Theorem send_button_guards_submit (trim : string -> string) (h : Home.t) :
  (Home.sendDisabled trim h = true <-> Home.handleSubmit trim h = []) /\
  (Home.sendDisabled trim h = false ->
   trim (Home.input h) <> "" /\
   Home.handleSubmit trim h =
     [Home.sendMessage (trim (Home.input h)); Home.setInput ""]).
Proof.
  unfold Home.sendDisabled, Home.handleSubmit.
  destruct (Home.isStreaming h), (String.eqb (trim (Home.input h)) "") eqn:E;
    cbn [orb]; (split; [split; intros; try reflexivity; discriminate |]);
    intros H; try discriminate H.
  split; [| reflexivity]. intros Hempty. apply eqb_empty in Hempty. congruence.
Qed.

(** X13: of all key presses only Enter with the meta or the control key
    sends, and it sends what submitting the form sends: nothing while the
    Send button is disabled, else the trimmed draft once. *)
Theorem keyboard_sends_like_the_form (trim : string -> string) (h : Home.t)
    (metaKey ctrlKey : bool) (key : string) :
  Home.sent (Home.calls (Home.onKeyDown trim h metaKey ctrlKey key)) =
    (if (metaKey || ctrlKey) && String.eqb key "Enter"
     then Home.sent (Home.calls (Home.onSubmit trim h)) else []) /\
  Home.sent (Home.calls (Home.onSubmit trim h)) =
    (if Home.sendDisabled trim h then [] else [trim (Home.input h)]).
Proof.
  split.
  - unfold Home.onKeyDown.
    destruct ((metaKey || ctrlKey) && String.eqb key "Enter"); [reflexivity |].
    destruct (String.eqb key "Escape" && negb (String.eqb (Home.input h) ""));
      reflexivity.
  - unfold Home.onSubmit, Home.handleSubmit, Home.sendDisabled. cbn [Home.calls].
    destruct (Home.isStreaming h), (String.eqb (trim (Home.input h)) "");
      reflexivity.
Qed.

(** X14: the Escape key tests the draft as typed, the two buttons test the
    trimmed draft.  On a draft of white space only and an empty transcript
    the Send and the Clear button are disabled and submitting the form
    sends nothing, yet Escape, with or without the meta and control keys,
    is handled and makes the calls that end [handleClear]: the draft is
    emptied and the text area focused. *)
Theorem escape_clears_a_blank_draft (trim : string -> string) (h : Home.t)
    (metaKey ctrlKey : bool) :
  Home.input h <> "" -> trim (Home.input h) = "" -> Home.messages h = [] ->
  Home.sendDisabled trim h = true /\
  Home.clearDisabled trim h = true /\
  Home.calls (Home.onSubmit trim h) = [] /\
  Home.prevented (Home.onKeyDown trim h metaKey ctrlKey "Escape") = true /\
  Home.handleClear h =
    ([Home.setMessages []; Home.clearError] ++
     Home.calls (Home.onKeyDown trim h metaKey ctrlKey "Escape"))%list.
Proof.
  intros Hdraft Hblank Hnone.
  assert (Htyped : String.eqb (Home.input h) "" = false).
  { apply String.eqb_neq. exact Hdraft. }
  unfold Home.sendDisabled, Home.clearDisabled, Home.hasMessages, Home.onSubmit,
    Home.handleSubmit, Home.onKeyDown, Home.handleClear.
  rewrite Hblank, Hnone, Htyped.
  change (String.eqb "Escape" "Enter") with false.
  change (String.eqb "Escape" "Escape") with true.
  rewrite andb_false_r, orb_true_r. cbn. repeat split; reflexivity.
Qed.

Lemma escape_clears_a_blank_draft_witness :
  Home.sendDisabled trim_ascii (Home.mk [] "ready" "  ") = true /\
  Home.clearDisabled trim_ascii (Home.mk [] "ready" "  ") = true /\
  Home.calls (Home.onSubmit trim_ascii (Home.mk [] "ready" "  ")) = [] /\
  Home.prevented
    (Home.onKeyDown trim_ascii (Home.mk [] "ready" "  ") false false "Escape") = true /\
  Home.handleClear (Home.mk [] "ready" "  ") =
    ([Home.setMessages []; Home.clearError] ++
     Home.calls
       (Home.onKeyDown trim_ascii (Home.mk [] "ready" "  ") false false "Escape"))%list.
Proof.
  apply (escape_clears_a_blank_draft trim_ascii (Home.mk [] "ready" "  ") false false).
  - vm_compute. discriminate.
  - vm_compute. reflexivity.
  - reflexivity.
Defined.

(** X15: the Clear button is disabled exactly when there is no message and
    the trimmed draft is empty, so it is enabled whenever the Send button
    is; [handleClear] empties the messages and the draft and never sends. *)
Theorem clear_button_and_handler (trim : string -> string) (h : Home.t) :
  (Home.clearDisabled trim h = true <->
   Home.messages h = [] /\ trim (Home.input h) = "") /\
  (Home.sendDisabled trim h = false -> Home.clearDisabled trim h = false) /\
  Home.handleClear h =
    [Home.setMessages []; Home.clearError; Home.setInput ""; Home.focusInput] /\
  Home.sent (Home.handleClear h) = [].
Proof.
  assert (Hc : Home.clearDisabled trim h = true <->
               Home.messages h = [] /\ trim (Home.input h) = "").
  { unfold Home.clearDisabled, Home.hasMessages.
    rewrite andb_true_iff, negb_true_iff, Nat.ltb_ge, Nat.eqb_eq.
    split; intros [Hm Ht]; split.
    - destruct (Home.messages h); [reflexivity | simpl in Hm; lia].
    - destruct (trim (Home.input h)); [reflexivity | discriminate].
    - rewrite Hm. simpl. lia.
    - now rewrite Ht. }
  split; [exact Hc |]. split; [| split; reflexivity].
  intros Hsend. destruct (Home.clearDisabled trim h) eqn:E; [| reflexivity].
  destruct (proj1 Hc eq_refl) as [_ Ht]. unfold Home.sendDisabled in Hsend.
  rewrite Ht in Hsend. change (String.eqb "" "") with true in Hsend.
  now rewrite orb_true_r in Hsend.
Qed.

Lemma statusDetailsMap_lookup (status : string) :
  Home.statusDetailsMap !! status =
    if decide ("streaming" = status) then
      Some (Home.StatusDetails.mk "Streaming response"
              "Vox Solaris is transmitting fresh telemetry."
              "border-sky-400/40 bg-sky-500/20 text-sky-100")
    else if decide ("loading" = status) then
      Some (Home.StatusDetails.mk "Routing tools"
              "Linking weather, hazard, and navigation modules."
              "border-indigo-400/40 bg-indigo-500/20 text-indigo-100")
    else if decide ("ready" = status) then
      Some (Home.StatusDetails.mk "Standing by"
              "Console idle and ready for your next prompt."
              "border-white/20 bg-white/10 text-slate-200")
    else if decide ("idle" = status) then
      Some (Home.StatusDetails.mk "Standing by"
              "Console idle and ready for your next prompt."
              "border-white/20 bg-white/10 text-slate-200")
    else if decide ("error" = status) then
      Some (Home.StatusDetails.mk "Transmission glitch"
              "Interference hit the feed. Try again in a beat."
              "border-rose-500/45 bg-rose-500/20 text-rose-100")
    else if decide ("errored" = status) then
      Some (Home.StatusDetails.mk "Transmission glitch"
              "Interference hit the feed. Try again in a beat."
              "border-rose-500/45 bg-rose-500/20 text-rose-100")
    else None.
Proof.
  unfold Home.statusDetailsMap. rewrite !lookup_insert, lookup_empty. reflexivity.
Qed.

Lemma eqb_decide (s1 s2 : string) :
  String.eqb s1 s2 = bool_decide (s2 = s1).
Proof.
  destruct (String.eqb s1 s2) eqn:E.
  - apply String.eqb_eq in E. symmetry. now apply bool_decide_eq_true.
  - apply String.eqb_neq in E. symmetry. apply bool_decide_eq_false. congruence.
Qed.

(** X16: for a status that names no member of [Object.prototype] the status
    badge has an entry, and its label agrees with [isStreaming]: "Streaming
    response" or "Routing tools" exactly while the page counts as streaming,
    and "Standing by" or "Transmission glitch" otherwise, a status without
    an entry of its own showing "Standing by". *)
Theorem statusDetails_agrees_with_isStreaming (inherited : string -> bool)
    (h : Home.t) (Hown : inherited (Home.status h) = false) :
  exists details,
    Home.statusDetails inherited h = Some details /\
    (Home.statusDetailsMap !! Home.status h = None ->
     Home.StatusDetails.label details = "Standing by") /\
    (Home.isStreaming h = true <->
     Home.StatusDetails.label details = "Streaming response" \/
     Home.StatusDetails.label details = "Routing tools") /\
    (Home.isStreaming h = false <->
     Home.StatusDetails.label details = "Standing by" \/
     Home.StatusDetails.label details = "Transmission glitch").
Proof.
  unfold Home.statusDetails, Home.isStreaming. rewrite Hown.
  rewrite !eqb_decide, !statusDetailsMap_lookup.
  destruct h as [messages status input]. cbn [Home.status] in *.
  repeat case_decide; subst; try congruence;
    try (rewrite !bool_decide_eq_false_2 by congruence);
    eexists; (split; [reflexivity |]); cbn;
    (split; [intros; first [discriminate | reflexivity] |]);
    split; split; intros; try discriminate; try reflexivity;
    try (left; reflexivity); try (right; reflexivity);
    intuition discriminate.
Qed.

Lemma statusDetails_agrees_with_isStreaming_witness :
  exists details,
    Home.statusDetails inherited_name (Home.mk [] "submitted" "") = Some details /\
    (Home.statusDetailsMap !! "submitted" = None ->
     Home.StatusDetails.label details = "Standing by") /\
    (Home.isStreaming (Home.mk [] "submitted" "") = true <->
     Home.StatusDetails.label details = "Streaming response" \/
     Home.StatusDetails.label details = "Routing tools") /\
    (Home.isStreaming (Home.mk [] "submitted" "") = false <->
     Home.StatusDetails.label details = "Standing by" \/
     Home.StatusDetails.label details = "Transmission glitch").
Proof.
  apply (statusDetails_agrees_with_isStreaming inherited_name
           (Home.mk [] "submitted" "")).
  vm_compute. reflexivity.
Defined.

(** A well-formed part renders to an element, and to a card exactly in
    [output-available]. *)
Lemma renderPart_well_formed (part : Part) :
  Home.well_formed part = true ->
  Home.renderPart part <> Some Home.TypeError /\
  Home.is_card (Home.renderPart part) =
    bool_decide (part_state part = Some output_available).
Proof.
  destruct part as [text | [name state input output errorText]];
    [intros _; split; [discriminate | reflexivity] |].
  destruct name, state, output as [[] |]; intros Hwf; try discriminate Hwf;
    (split; [discriminate | reflexivity]).
Qed.

Lemma renderedParts_all_parts (h : Home.t) :
  Home.renderedParts h = map Home.renderPart (Home.all_parts (Home.messages h)).
Proof.
  unfold Home.renderedParts, Home.all_parts.
  induction (Home.messages h) as [|m ms IH]; [reflexivity |].
  cbn [map concat]. now rewrite IH, List.map_app.
Qed.

(** X17: a part whose output, once available, is that of its own tool
    renders to an element; no [TypeError] escapes and the final
    [return null] is not reached.  A text part gives its text as a
    paragraph; a tool part gives a loader with a caption while its input
    streams or is available, the error text after a prefix of its tool when
    it failed, and the card of its own tool over its output when it
    succeeded. *)
Theorem renderPart_by_state (part : Part) :
  Home.well_formed part = true ->
  match part with
  | TextPart text => Home.renderPart part = Some (Home.element (Home.paragraph text))
  | ToolPartOf tp =>
      match ToolPart.state tp with
      | input_streaming | input_available =>
          exists caption,
            caption <> "" /\
            Home.renderPart part = Some (Home.element (Home.loader caption))
      | output_error =>
          exists prefix,
            prefix <> "" /\
            Home.renderPart part =
              Some (Home.element
                      (Home.failure (prefix ++ Home.shown (ToolPart.errorText tp))))
      | output_available =>
          exists data,
            ToolPart.output tp = Some data /\
            Home.output_tool data = ToolPart.toolName tp /\
            Home.renderPart part =
              Some (Home.element (Home.card (ToolPart.toolName tp) data))
      end
  end.
Proof.
  destruct part as [text | [name state input output errorText]];
    [intros _; reflexivity |].
  cbn [ToolPart.state ToolPart.toolName ToolPart.output ToolPart.errorText].
  intros Hwf. destruct state.
  - destruct name; eexists; (split; [| reflexivity]); discriminate.
  - destruct name; eexists; (split; [| reflexivity]); discriminate.
  - destruct output as [data |]; [| discriminate Hwf].
    exists data. split; [reflexivity |].
    destruct name, data; try discriminate Hwf; split; reflexivity.
  - destruct name;
      [ exists "Weather scan failed: " | exists "Hazard scan failed: "
      | exists "Navigation planner offline: " | exists "Event tracker glitch: "
      | exists "Gear bay offline: " ];
      (split; [discriminate | reflexivity]).
Qed.

Lemma renderPart_by_state_witness :
  exists data,
    Home.part_output gear_part = Some data /\
    Home.output_tool data = tool_whatToWear /\
    Home.renderPart gear_part =
      Some (Home.element (Home.card tool_whatToWear data)).
Proof. apply (renderPart_by_state gear_part). vm_compute. reflexivity. Defined.

(** X18: on a transcript whose parts hold, once available, the output of
    their own tool, the page renders without a [TypeError] and the "tool
    runs" metric of the header is the number of result cards on it:
    [toolActivations] counts exactly the parts that the callback turns into
    a card. *)
Theorem toolActivations_counts_cards (h : Home.t) :
  Forall (fun part => Home.well_formed part = true)
    (Home.all_parts (Home.messages h)) ->
  Forall (fun done => done <> Some Home.TypeError) (Home.renderedParts h) /\
  Home.toolActivations h =
    length (List.filter Home.is_card (Home.renderedParts h)).
Proof.
  intros Hwf. rewrite renderedParts_all_parts.
  unfold Home.toolActivations. rewrite toolActivations_from, Nat.add_0_l.
  unfold Home.output_available_count.
  induction Hwf as [| part parts Hpart _ [IHok IHcount]];
    [split; [constructor | reflexivity] |].
  destruct (renderPart_well_formed part Hpart) as [Hok Hcard].
  cbn [map List.filter]. rewrite Hcard. split.
  - constructor; assumption.
  - destruct (bool_decide (part_state part = Some output_available));
      cbn [length]; now rewrite IHcount.
Qed.

Lemma toolActivations_counts_cards_witness :
  Forall (fun done => done <> Some Home.TypeError) (Home.renderedParts sample_home) /\
  Home.toolActivations sample_home =
    length (List.filter Home.is_card (Home.renderedParts sample_home)).
Proof. apply (toolActivations_counts_cards sample_home). repeat constructor. Defined.

(** X19: the callback never reaches its final [return null] on a tool part,
    and a [TypeError] escapes it exactly on a part in [output-available]
    whose output is [undefined], or, for the four cards that map over a
    list, is the output of another tool; the weather card only reads
    members and renders over any object. *)
Theorem renderPart_throws (tp : ToolPart.t) :
  Home.renderPart (ToolPartOf tp) <> None /\
  (Home.renderPart (ToolPartOf tp) = Some Home.TypeError <->
   ToolPart.state tp = output_available /\
   match ToolPart.output tp with
   | None => True
   | Some data =>
       ToolPart.toolName tp <> tool_weather /\
       Home.output_tool data <> ToolPart.toolName tp
   end).
Proof.
  destruct tp as [name state input output errorText].
  cbn [ToolPart.state ToolPart.toolName ToolPart.output].
  destruct name, state, output as [[] |]; cbn [Home.output_tool];
    (split; [discriminate |]);
    (split;
     [ intros Hthrown;
       first [ exfalso; vm_compute in Hthrown; discriminate Hthrown
             | split; [reflexivity |]; first [exact I | split; discriminate] ]
     | intros [Hstate Hdata];
       first [ discriminate Hstate
             | reflexivity
             | exfalso; destruct Hdata as [Hweather Hother];
               first [now apply Hweather | now apply Hother] ] ]).
Qed.
